(** * KeyOriginInfo: origin of an HD key (lib/hd/keyorigininfo.js)

    A shallow embedding of the [KeyOriginInfo] class of bcoin and of the
    parts of its collaborators that the class calls: JavaScript's 32-bit
    operators, the [bufio] reader and writer, Node's [Buffer] read.

    JavaScript numbers that the class handles are integers; they are modelled
    as [Z] and every 32-bit conversion is written out. A method that mutates
    [this] takes the object and returns the updated one. *)

From Stdlib Require Import ZArith List String Ascii Bool Lia DecimalString.
Import ListNotations.
Open Scope Z_scope.

Set Warnings "-register-all".

(** ** Outcomes of a call *)

(** The exceptions the modelled code can raise. [PathError] stands for the
    plain [Error] of the path parser. *)
Inductive exn : Type :=
| AssertionError
| EncodingError
| TypeError
| RangeError
| PathError.

(** A call returns a value, throws, or (in the model only) exhausts the
    iteration budget of a [while] loop. *)
Inductive result (A : Type) : Type :=
| Ok (a : A)
| Throw (e : exn)
| OutOfFuel.

Arguments Ok {A} a.
Arguments Throw {A} e.
Arguments OutOfFuel {A}.

Definition bind {A B : Type} (m : result A) (k : A -> result B) : result B :=
  match m with
  | Ok a => k a
  | Throw e => Throw e
  | OutOfFuel => OutOfFuel
  end.

Notation "x <- m ;; k" := (bind m (fun x => k))
  (at level 61, m at next level, right associativity).
Notation "m ;;; k" := (bind m (fun _ => k))
  (at level 61, right associativity).

Definition is_ok {A : Type} (m : result A) : bool :=
  match m with Ok _ => true | _ => false end.

(** [assert(cond)] *)
Definition assert (cond : bool) : result unit :=
  if cond then Ok tt else Throw AssertionError.

(** ** JavaScript values and 32-bit operators *)

Module JS.

(** The values a field of an options or JSON object can hold. [Num] holds
    the integral numbers; [Obj] is any other object. *)
Inductive value : Type :=
| Undefined
| Null
| Bool (b : bool)
| Num (z : Z)
| Str (s : string)
| Arr (l : list value)
| Obj.

(** ToBoolean, as used by [if (v)]. *)
Definition truthy (v : value) : bool :=
  match v with
  | Undefined | Null => false
  | Bool b => b
  | Num z => negb (z =? 0)
  | Str s => negb (String.eqb s EmptyString)
  | Arr _ | Obj => true
  end.

(** [Array.isArray(v)] *)
Definition isArray (v : value) : bool :=
  match v with Arr _ => true | _ => false end.

(** ToUint32 and ToInt32 of an integral number. *)
Definition ToUint32 (z : Z) : Z := z mod 2 ^ 32.
Definition ToInt32 (z : Z) : Z := (z + 2 ^ 31) mod 2 ^ 32 - 2 ^ 31.

(** [a | b] and [a & b]: both operands go through ToInt32 and the result
    is a signed 32-bit integer. *)
Definition bitor (a b : Z) : Z := ToInt32 (Z.lor (ToInt32 a) (ToInt32 b)).
Definition bitand (a b : Z) : Z := ToInt32 (Z.land (ToInt32 a) (ToInt32 b)).

(** [a >>> k] for [0 <= k < 32]. *)
Definition ushr (a k : Z) : Z := Z.shiftr (ToUint32 a) k.

(** [(v >>> 0) === v]. The left side is always a number, so the strict
    comparison fails for every [v] that is not a number. *)
Definition is_uint32 (v : value) : bool :=
  match v with
  | Num z => ushr z 0 =? z
  | _ => false
  end.

(** Storing a number into an element of a [Uint8Array] (ToUint8). *)
Definition ToUint8 (z : Z) : Z := z mod 256.

(** [Number.isSafeInteger] on an integral number. *)
Definition isSafeInteger (z : Z) : bool := Z.abs z <=? 2 ^ 53 - 1.

(** Conversion of an integral number to a string, as in a template
    literal. *)
Definition toString (z : Z) : string := NilZero.string_of_int (Z.to_int z).

End JS.

(** [assert((v >>> 0) === v)] followed by a use of [v] as a number. Past the
    assertion [v] is a number: [JS.is_uint32] is false on everything else, so
    the last case is never reached. *)
Definition assert_uint32 (v : JS.value) : result Z :=
  assert (JS.is_uint32 v) ;;;
  match v with
  | JS.Num z => Ok z
  | _ => Throw TypeError
  end.

(** ** The bufio library: byte order, static writer, buffer reader

    A buffer is a list of bytes, each a [Z] in [0, 256). *)

Module Bufio.

(** [encoding.writeU32(dst, num, off)]: least significant byte first. The
    four bytes stored are returned in the order of their offsets. *)
Definition encode_U32 (num : Z) : result (list Z) :=
  if JS.isSafeInteger num then
    let b0 := JS.ToUint8 num in
    let num1 := JS.ushr num 8 in
    let b1 := JS.ToUint8 num1 in
    let num2 := JS.ushr num1 8 in
    let b2 := JS.ToUint8 num2 in
    let num3 := JS.ushr num2 8 in
    let b3 := JS.ToUint8 num3 in
    Ok [b0; b1; b2; b3]
  else Throw TypeError.

(** [encoding.writeU32BE(dst, num, off)]: the same bytes, stored from
    offset [off + 3] down to [off]. *)
Definition encode_U32BE (num : Z) : result (list Z) :=
  if JS.isSafeInteger num then
    let b3 := JS.ToUint8 num in
    let num1 := JS.ushr num 8 in
    let b2 := JS.ToUint8 num1 in
    let num2 := JS.ushr num1 8 in
    let b1 := JS.ToUint8 num2 in
    let num3 := JS.ushr num2 8 in
    let b0 := JS.ToUint8 num3 in
    Ok [b0; b1; b2; b3]
  else Throw TypeError.

(** [data[off]] of a buffer that is known to be long enough. *)
Definition byte_at (data : list Z) (off : nat) : Z := nth off data 0.

(** [encoding.readU32(data, off)] and [encoding.readU32BE(data, off)]. *)
Definition decode_U32 (data : list Z) (off : nat) : Z :=
  byte_at data off
  + byte_at data (off + 1) * 256
  + byte_at data (off + 2) * 65536
  + byte_at data (off + 3) * 16777216.

Definition decode_U32BE (data : list Z) (off : nat) : Z :=
  byte_at data off * 16777216
  + byte_at data (off + 1) * 65536
  + byte_at data (off + 2) * 256
  + byte_at data (off + 3).

(** [StaticWriter]: a buffer of [size] bytes allocated at once and an
    offset. Only the bytes below the offset are kept, as [written]: the
    rest of the buffer is never observed, since [render] demands that the
    offset has reached the size. *)
Record StaticWriter : Type := {
  size : nat;
  written : list Z
}.

(** [bio.write(size)] *)
Definition write (sz : nat) : StaticWriter :=
  {| size := sz; written := [] |}.

Definition w_check (bw : StaticWriter) (n : nat) : result unit :=
  if (List.length (written bw) + n <=? size bw)%nat then Ok tt
  else Throw EncodingError.

Definition writeU32 (bw : StaticWriter) (value : Z) : result StaticWriter :=
  w_check bw 4 ;;;
  bytes <- encode_U32 value ;;
  Ok {| size := size bw; written := written bw ++ bytes |}.

Definition writeU32BE (bw : StaticWriter) (value : Z) : result StaticWriter :=
  w_check bw 4 ;;;
  bytes <- encode_U32BE value ;;
  Ok {| size := size bw; written := written bw ++ bytes |}.

Definition render (bw : StaticWriter) : result (list Z) :=
  if (List.length (written bw) =? size bw)%nat then Ok (written bw)
  else Throw EncodingError.

(** [BufferReader]: the buffer and the read offset. *)
Record BufferReader : Type := {
  data : list Z;
  offset : nat
}.

(** [bio.read(data)] *)
Definition read (d : list Z) : BufferReader :=
  {| data := d; offset := 0 |}.

Definition r_check (br : BufferReader) (n : nat) : result unit :=
  if (offset br + n <=? List.length (data br))%nat then Ok tt
  else Throw EncodingError.

Definition left (br : BufferReader) : result nat :=
  r_check br 0 ;;;
  Ok (List.length (data br) - offset br)%nat.

Definition readU32 (br : BufferReader) : result (Z * BufferReader) :=
  r_check br 4 ;;;
  Ok (decode_U32 (data br) (offset br),
      {| data := data br; offset := offset br + 4 |}).

Definition readU32BE (br : BufferReader) : result (Z * BufferReader) :=
  r_check br 4 ;;;
  Ok (decode_U32BE (data br) (offset br),
      {| data := data br; offset := offset br + 4 |}).

End Bufio.

(** [buf.readUInt32BE(off)] of Node's [Buffer]. *)
Definition Buffer_readUInt32BE (buf : list Z) (off : nat) : result Z :=
  if (off + 4 <=? List.length buf)%nat then Ok (Bufio.decode_U32BE buf off)
  else Throw RangeError.

(** ** lib/hd/common.js *)

Module common.

(** Modelled from the spec: the constant [common.HARDENED] of
    lib/hd/common.js, the hardened flag, bit 31 of an index. *)
Definition HARDENED : Z := 0x80000000.

End common.

(** ** lib/wallet/walletkey.js *)

(** Modelled from the spec: the fields of a [WalletKey] that the class
    reads, a public key and the account, branch and index numbers. *)
Record WalletKey : Type := {
  publicKey : list Z;
  account : Z;
  branch : Z;
  index : Z
}.

(** ** The class *)

Record KeyOriginInfo : Type := {
  fingerPrint : Z;
  path : list Z
}.

(** The object passed to the constructor and to [fromOptions]. *)
Record Options : Type := {
  opt_fingerPrint : JS.value;
  opt_path : JS.value
}.

(** The object passed to [fromJSON] and returned by [toJSON]. *)
Record Json : Type := {
  json_fingerPrint : JS.value;
  json_path : JS.value
}.

(** The object returned by [format]. *)
Record Formatted : Type := {
  fmt_fingerPrint : Z;
  fmt_path : string
}.

(** The fields as the constructor sets them before it reads its options. *)
Definition fresh : KeyOriginInfo := {| fingerPrint := -1; path := [] |}.

(** [options.path.every(p => (p >>> 0) === p)] under [assert], giving the
    numbers of the array. *)
Fixpoint every_uint32 (l : list JS.value) : result (list Z) :=
  match l with
  | [] => Ok []
  | p :: rest =>
      z <- assert_uint32 p ;;
      zs <- every_uint32 rest ;;
      Ok (z :: zs)
  end.

(** The loop of [fromJSON]: each element is asserted, then pushed. The array
    walked is another array than [this.path], the one pushed onto; for the
    path array of the receiver itself see [push_own]. *)
Fixpoint push_each (acc : list Z) (l : list JS.value) : result (list Z) :=
  match l with
  | [] => Ok acc
  | p :: rest =>
      z <- assert_uint32 p ;;
      push_each (acc ++ [z]) rest
  end.

(** [this.path[i] !== keyInfo.path[i]]: an index past the end reads as
    [undefined], here [None]. *)
Definition strict_ne (a b : option Z) : bool :=
  match a, b with
  | Some x, Some y => negb (x =? y)
  | None, None => false
  | _, _ => true
  end.

(** The loop of [equals] over the keys of [this.path]. *)
Fixpoint equals_loop (keys : list nat) (mine theirs : list Z) : bool :=
  match keys with
  | [] => true
  | i :: rest =>
      if strict_ne (nth_error mine i) (nth_error theirs i) then false
      else equals_loop rest mine theirs
  end.

Definition equals (self keyInfo : KeyOriginInfo) : bool :=
  if negb (fingerPrint self =? fingerPrint keyInfo) then false
  else equals_loop (seq 0 (List.length (path self))) (path self) (path keyInfo).

(** The loop of [format]. *)
Fixpoint format_loop (acc : string) (l : list Z) : string :=
  match l with
  | [] => acc
  | p :: rest =>
      let hardened :=
        if JS.truthy (JS.Num (JS.bitand p common.HARDENED))
        then "'"%string else ""%string in
      format_loop
        (acc ++ "/" ++ JS.toString (JS.bitand p 0x7fffffff) ++ hardened)%string
        rest
  end.

Definition format (self : KeyOriginInfo) : Formatted :=
  {| fmt_fingerPrint := fingerPrint self;
     fmt_path := format_loop "m" (path self) |}.

(** The loop of [fromReader]: [while (br.left()) this.path.push(br.readU32())].
    Every turn moves the offset by four, so a budget of as many turns as the
    buffer has bytes is never exhausted (see [read_path_by_length]). *)
Fixpoint read_path (fuel : nat) (br : Bufio.BufferReader) (acc : list Z)
  : result (list Z) :=
  n <- Bufio.left br ;;
  if (n =? 0)%nat then Ok acc
  else
    match fuel with
    | O => OutOfFuel
    | S fuel' =>
        r <- Bufio.readU32 br ;;
        read_path fuel' (snd r) (acc ++ [fst r])
    end.

Definition fromReader (self : KeyOriginInfo) (br : Bufio.BufferReader)
  : result KeyOriginInfo :=
  r <- Bufio.readU32BE br ;;
  p <- read_path (List.length (Bufio.data br)) (snd r) (path self) ;;
  Ok {| fingerPrint := fst r; path := p |}.

Definition fromRaw (self : KeyOriginInfo) (data : list Z)
  : result KeyOriginInfo :=
  fromReader self (Bufio.read data).

(** The loop of [toWriter]. *)
Fixpoint write_path (bw : Bufio.StaticWriter) (l : list Z)
  : result Bufio.StaticWriter :=
  match l with
  | [] => Ok bw
  | p :: rest =>
      bw' <- Bufio.writeU32 bw p ;;
      write_path bw' rest
  end.

Definition toWriter (self : KeyOriginInfo) (bw : Bufio.StaticWriter)
  : result Bufio.StaticWriter :=
  bw' <- Bufio.writeU32BE bw (fingerPrint self) ;;
  write_path bw' (path self).

Definition getSize (self : KeyOriginInfo) : nat :=
  (4 + List.length (path self) * 4)%nat.

Definition toRaw (self : KeyOriginInfo) : result (list Z) :=
  let size := getSize self in
  bw <- toWriter self (Bufio.write size) ;;
  Bufio.render bw.

Definition toJSON (self : KeyOriginInfo) : Json :=
  {| json_fingerPrint := JS.Num (fingerPrint self);
     json_path := JS.Arr (map JS.Num (path self)) |}.

Definition clear (self : KeyOriginInfo) : KeyOriginInfo :=
  {| fingerPrint := -1; path := [] |}.

Section WithCollaborators.

(** [common.parsePath(path, hard)] of lib/hd/common.js and
    [hash160.digest(data)] of bcrypto are taken as given. *)
Variable parsePath : JS.value -> bool -> result (list Z).
Variable hash160_digest : list Z -> list Z.

Definition fromOptions (self : KeyOriginInfo) (options : Options)
  : result KeyOriginInfo :=
  fp <- (if JS.truthy (opt_fingerPrint options)
         then assert_uint32 (opt_fingerPrint options)
         else Ok (fingerPrint self)) ;;
  p <- (if JS.truthy (opt_path options)
        then
          match opt_path options with
          | JS.Arr l => every_uint32 l
          | other => parsePath other true
          end
        else Ok (path self)) ;;
  Ok {| fingerPrint := fp; path := p |}.

Definition constructor (options : option Options) : result KeyOriginInfo :=
  match options with
  | Some o => fromOptions fresh o
  | None => Ok fresh
  end.

Definition fromJSON (self : KeyOriginInfo) (json : Json)
  : result KeyOriginInfo :=
  fp <- (if JS.truthy (json_fingerPrint json)
         then assert_uint32 (json_fingerPrint json)
         else Ok (fingerPrint self)) ;;
  p <- (if JS.truthy (json_path json)
        then
          match json_path json with
          | JS.Arr (x :: l) => push_each (path self) (x :: l)
          | other => parsePath other true
          end
        else Ok (path self)) ;;
  Ok {| fingerPrint := fp; path := p |}.

Definition clone (self : KeyOriginInfo) : result KeyOriginInfo :=
  let p := path self in
  constructor (Some {| opt_fingerPrint := JS.Num (fingerPrint self);
                       opt_path := JS.Arr (map JS.Num p) |}).

Definition fromWalletKey (self : KeyOriginInfo) (wk : WalletKey)
  : result KeyOriginInfo :=
  let fp := hash160_digest (publicKey wk) in
  f <- Buffer_readUInt32BE fp 0 ;;
  Ok {| fingerPrint := f;
        path := ((path self ++ [JS.bitor (account wk) common.HARDENED])
                   ++ [branch wk]) ++ [index wk] |}.

(** The static methods: [new this()] followed by the method. *)
Definition static_fromOptions (options : Options) : result KeyOriginInfo :=
  self <- constructor None ;; fromOptions self options.

Definition static_fromJSON (json : Json) : result KeyOriginInfo :=
  self <- constructor None ;; fromJSON self json.

Definition static_fromWalletKey (wk : WalletKey) : result KeyOriginInfo :=
  self <- constructor None ;; fromWalletKey self wk.

End WithCollaborators.

Definition static_fromReader (br : Bufio.BufferReader) : result KeyOriginInfo :=
  fromReader fresh br.

Definition static_fromRaw (data : list Z) : result KeyOriginInfo :=
  fromRaw fresh data.


(** ** Reference notions used in the statements *)

(** The four bytes of an unsigned 32-bit integer, least significant first, and
    most significant first. *)
Definition le_bytes (n : Z) : list Z :=
  [n mod 256; (n / 256) mod 256; (n / 65536) mod 256; (n / 16777216) mod 256].

Definition be_bytes (n : Z) : list Z :=
  [(n / 16777216) mod 256; (n / 65536) mod 256; (n / 256) mod 256; n mod 256].

(** A number that is an unsigned 32-bit integer. *)
Definition uint32 (z : Z) : Prop := 0 <= z < 2 ^ 32.

(** The buffer lengths of one encoded object: [4 + 4 * k]. *)
Definition well_sized (n : nat) : bool :=
  ((4 <=? n) && ((n - 4) mod 4 =? 0))%nat.

(** One segment of a formatted path: the decimal numeral of the element
    without its bit 31, then the marker when bit 31 is set. *)
Definition segment (p : Z) : string :=
  ("/" ++ JS.toString (Z.land p (Z.ones 31))
       ++ (if Z.testbit p 31 then "'" else ""))%string.

Fixpoint segments (l : list Z) : string :=
  match l with
  | [] => ""%string
  | p :: rest => (segment p ++ segments rest)%string
  end.

(** The scenario of the specification: fingerprint [0xDEADBEEF] and path
    [m/44'/0'/5]. *)
Definition scenario : KeyOriginInfo :=
  {| fingerPrint := 0xDEADBEEF; path := [0x8000002C; 0x80000000; 5] |}.

(** The sixteen bytes the specification gives for the scenario, every path
    element most significant byte first. *)
Definition scenario_bytes_big_endian : list Z :=
  [0xDE; 0xAD; 0xBE; 0xEF; 0x80; 0x00; 0x00; 0x2C;
   0x80; 0x00; 0x00; 0x00; 0x00; 0x00; 0x00; 0x05].

(** Equality of two buffers, byte by byte. *)
Fixpoint bytes_eqb (a b : list Z) : bool :=
  match a, b with
  | [], [] => true
  | x :: a', y :: b' => (x =? y) && bytes_eqb a' b'
  | _, _ => false
  end.

(** Stand-ins for the two collaborators, to run the class on concrete
    inputs: a digest that pads or cuts its input to twenty bytes, and a path
    parser that refuses every string. *)
Definition sample_digest (data : list Z) : list Z :=
  firstn 20 (data ++ repeat 0 20).

Definition sample_parsePath (v : JS.value) (hard : bool) : result (list Z) :=
  Throw PathError.

(** A wallet key with account 5, branch 0 and index 3. *)
Definition sample_key : WalletKey :=
  {| publicKey := [0x02; 0xDE; 0xAD; 0xBE; 0xEF]; account := 5; branch := 0; index := 3 |}.

(** A byte of a buffer. *)
Definition byte (z : Z) : Prop := 0 <= z < 256.

(** The numbers among the elements of an array, in order. *)
Definition numbers (l : list JS.value) : list Z :=
  flat_map (fun v => match v with JS.Num z => [z] | _ => [] end) l.

(** [inspect()] *)
Definition inspect (self : KeyOriginInfo) : Formatted := format self.

(** A writer of twenty bytes that holds four already, and an object whose
    fields are outside the unsigned 32-bit range. *)
Definition sample_writer : Bufio.StaticWriter :=
  {| Bufio.size := 20; Bufio.written := [1; 2; 3; 4] |}.

Definition sample_unreduced : KeyOriginInfo :=
  {| fingerPrint := -1; path := [-2147483643; 4294967301] |}.

(** [arr.push(z)] on an array that may be full: an array holds at most
    [2^32 - 1] elements, and pushing onto a full one throws a range error
    when the length is set. *)
Definition array_push (arr : list Z) (z : Z) : result (list Z) :=
  if Z.of_nat (List.length arr) <? 2 ^ 32 - 1 then Ok (arr ++ [z])
  else Throw RangeError.

(** The loop of [fromJSON] when [json.path] is the path array of the receiver
    itself, as in [k.fromJSON(k.toJSON())]: [toJSON] returns [this.path]
    uncopied. The iterator of [for (const p of json.path)] compares its index
    [i] with the length the array has at that turn, and every turn pushes one
    element onto that same array. *)
Fixpoint push_own (fuel : nat) (i : nat) (arr : list Z) : result (list Z) :=
  match nth_error arr i with
  | None => Ok arr
  | Some p =>
      match fuel with
      | O => OutOfFuel
      | S fuel' =>
          z <- assert_uint32 (JS.Num p) ;;
          arr' <- array_push arr z ;;
          push_own fuel' (S i) arr'
      end
  end.

(** [k.fromJSON(k.toJSON())]: the fingerprint field is the fingerprint of
    [k] and the path field is the path array of [k] itself. *)
Definition fromJSON_own_toJSON (fuel : nat)
  (parsePath : JS.value -> bool -> result (list Z)) (self : KeyOriginInfo)
  : result KeyOriginInfo :=
  fp <- (if JS.truthy (JS.Num (fingerPrint self))
         then assert_uint32 (JS.Num (fingerPrint self))
         else Ok (fingerPrint self)) ;;
  p <- match path self with
       | _ :: _ => push_own fuel 0 (path self)
       | [] => parsePath (JS.Arr []) true
       end ;;
  Ok {| fingerPrint := fp; path := p |}.

(** * Properties *)

(** ** 32-bit arithmetic *)

Lemma ToUint32_range (z : Z) : 0 <= JS.ToUint32 z < 2 ^ 32.
Proof. unfold JS.ToUint32. apply Z.mod_pos_bound. lia. Qed.

Lemma ToUint32_small (z : Z) : 0 <= z < 2 ^ 32 -> JS.ToUint32 z = z.
Proof. intros H. unfold JS.ToUint32. apply Z.mod_small. exact H. Qed.

Lemma ToInt32_range (z : Z) : - 2 ^ 31 <= JS.ToInt32 z < 2 ^ 31.
Proof.
  unfold JS.ToInt32.
  pose proof (Z.mod_pos_bound (z + 2 ^ 31) (2 ^ 32) ltac:(lia)). lia.
Qed.

Lemma ToInt32_small (z : Z) : - 2 ^ 31 <= z < 2 ^ 31 -> JS.ToInt32 z = z.
Proof.
  intros H. unfold JS.ToInt32. rewrite Z.mod_small by lia. lia.
Qed.

(** ToInt32 keeps the low 32 bits. *)
Lemma ToInt32_mod (z : Z) : JS.ToInt32 z mod 2 ^ 32 = z mod 2 ^ 32.
Proof.
  unfold JS.ToInt32.
  rewrite <- (Z.mod_add (_ - _) 1 (2 ^ 32)) by lia.
  replace ((z + 2 ^ 31) mod 2 ^ 32 - 2 ^ 31 + 1 * 2 ^ 32)
    with ((z + 2 ^ 31) mod 2 ^ 32 + 2 ^ 31) by lia.
  rewrite Z.add_mod_idemp_l by lia.
  replace (z + 2 ^ 31 + 2 ^ 31) with (z + 1 * 2 ^ 32) by lia.
  apply Z.mod_add. lia.
Qed.

Lemma ToInt32_testbit (z : Z) (i : Z) :
  0 <= i < 32 -> Z.testbit (JS.ToInt32 z) i = Z.testbit z i.
Proof.
  intros H.
  rewrite <- (Z.mod_pow2_bits_low (JS.ToInt32 z) 32 i) by lia.
  rewrite <- (Z.mod_pow2_bits_low z 32 i) by lia.
  now rewrite ToInt32_mod.
Qed.

(** The sign of a signed 32-bit integer is its bit 31. *)
Lemma int32_sign (x : Z) :
  - 2 ^ 31 <= x < 2 ^ 31 -> Z.testbit x 31 = (x <? 0).
Proof.
  intros H. rewrite Z.testbit_odd, Z.shiftr_div_pow2 by lia.
  destruct (Z.ltb_spec x 0) as [Hn | Hp].
  - replace (x / 2 ^ 31) with (-1); [reflexivity |].
    apply Z.div_unique with (r := x + 2 ^ 31); lia.
  - rewrite Z.div_small by lia. reflexivity.
Qed.

(** [p & 0x80000000] is nonzero exactly when bit 31 of [p] is set. *)
Lemma bitand_HARDENED (p : Z) :
  JS.truthy (JS.Num (JS.bitand p common.HARDENED)) = Z.testbit p 31.
Proof.
  unfold JS.bitand, common.HARDENED.
  change (JS.ToInt32 0x80000000) with (- 2 ^ 31).
  pose proof (ToInt32_range p) as Hr.
  rewrite <- (ToInt32_testbit p 31) by lia.
  rewrite (int32_sign _ Hr).
  set (x := JS.ToInt32 p) in *.
  replace (- 2 ^ 31) with (Z.lnot (Z.ones 31)) by reflexivity.
  rewrite <- Z.ldiff_land, Z.ldiff_ones_r by lia.
  rewrite Z.shiftl_mul_pow2, Z.shiftr_div_pow2 by lia.
  destruct (Z.ltb_spec x 0) as [Hn | Hp].
  - replace (x / 2 ^ 31) with (-1)
      by (apply Z.div_unique with (r := x + 2 ^ 31); lia).
    reflexivity.
  - rewrite Z.div_small by lia. reflexivity.
Qed.

(** [p & 0x7fffffff] is the low 31 bits of [p]. *)
Lemma bitand_mask (p : Z) :
  JS.bitand p 0x7fffffff = Z.land p (Z.ones 31).
Proof.
  unfold JS.bitand.
  change (JS.ToInt32 0x7fffffff) with (Z.ones 31).
  rewrite !Z.land_ones by lia.
  assert (H : JS.ToInt32 p mod 2 ^ 31 = p mod 2 ^ 31).
  { assert (Hd : (2 ^ 31 | 2 ^ 32)) by (exists 2; reflexivity).
    rewrite <- (Z.mod_mod_divide (JS.ToInt32 p) _ _ Hd).
    rewrite <- (Z.mod_mod_divide p _ _ Hd).
    now rewrite ToInt32_mod. }
  rewrite H. apply ToInt32_small.
  pose proof (Z.mod_pos_bound p (2 ^ 31) ltac:(lia)). lia.
Qed.

(** ** Byte order *)

Lemma uint32_safe (z : Z) : uint32 z -> JS.isSafeInteger z = true.
Proof.
  unfold uint32, JS.isSafeInteger. intros H.
  apply Z.leb_le. rewrite Z.abs_eq by lia. lia.
Qed.

Lemma ushr8 (z : Z) : 0 <= z < 2 ^ 32 -> JS.ushr z 8 = z / 256.
Proof.
  intros H. unfold JS.ushr. rewrite ToUint32_small by exact H.
  rewrite Z.shiftr_div_pow2 by lia. reflexivity.
Qed.

Lemma div256_range (z : Z) : 0 <= z < 2 ^ 32 -> 0 <= z / 256 < 2 ^ 32.
Proof.
  intros H. split.
  - apply Z.div_pos; lia.
  - apply Z.div_lt_upper_bound; lia.
Qed.

(** Storing a number keeps the low byte of its ToUint32. *)
Lemma ToUint8_ToUint32 (z : Z) : JS.ToUint8 z = JS.ToUint32 z mod 256.
Proof.
  unfold JS.ToUint8, JS.ToUint32. symmetry.
  apply Z.mod_mod_divide. exists (2 ^ 24). reflexivity.
Qed.

Lemma ushr8_ToUint32 (z : Z) : JS.ushr z 8 = JS.ToUint32 z / 256.
Proof.
  unfold JS.ushr. rewrite Z.shiftr_div_pow2 by lia. reflexivity.
Qed.

Lemma encode_U32_bytes (num : Z) :
  JS.isSafeInteger num = true ->
  Bufio.encode_U32 num = Ok (le_bytes (JS.ToUint32 num)).
Proof.
  intros Hs. unfold Bufio.encode_U32. rewrite Hs. cbv zeta.
  pose proof (ToUint32_range num) as Hu.
  set (u := JS.ToUint32 num) in *.
  rewrite (ToUint8_ToUint32 num), (ushr8_ToUint32 num). fold u.
  pose proof (div256_range u Hu) as H1.
  pose proof (div256_range _ H1) as H2.
  rewrite (ushr8 (u / 256) H1), (ushr8 (u / 256 / 256) H2).
  unfold le_bytes, JS.ToUint8.
  rewrite !Z.div_div by lia. reflexivity.
Qed.

Lemma encode_U32BE_bytes (num : Z) :
  JS.isSafeInteger num = true ->
  Bufio.encode_U32BE num = Ok (be_bytes (JS.ToUint32 num)).
Proof.
  intros Hs. unfold Bufio.encode_U32BE. rewrite Hs. cbv zeta.
  pose proof (ToUint32_range num) as Hu.
  set (u := JS.ToUint32 num) in *.
  rewrite (ToUint8_ToUint32 num), (ushr8_ToUint32 num). fold u.
  pose proof (div256_range u Hu) as H1.
  pose proof (div256_range _ H1) as H2.
  rewrite (ushr8 (u / 256) H1), (ushr8 (u / 256 / 256) H2).
  unfold be_bytes, JS.ToUint8.
  rewrite !Z.div_div by lia. reflexivity.
Qed.

(** The four bytes put together again give the number. *)
Lemma bytes_recompose (u : Z) :
  uint32 u ->
  u mod 256 + (u / 256) mod 256 * 256 + (u / 65536) mod 256 * 65536
  + (u / 16777216) mod 256 * 16777216 = u.
Proof.
  unfold uint32. intros H.
  replace (u / 65536) with (u / 256 / 256) by (rewrite Z.div_div by lia; reflexivity).
  replace (u / 16777216) with (u / 256 / 256 / 256)
    by (rewrite !Z.div_div by lia; reflexivity).
  pose proof (Z.div_mod u 256 ltac:(lia)) as E0.
  pose proof (Z.div_mod (u / 256) 256 ltac:(lia)) as E1.
  pose proof (Z.div_mod (u / 256 / 256) 256 ltac:(lia)) as E2.
  assert (H3 : 0 <= u / 256 / 256 / 256 < 256).
  { split.
    - repeat apply Z.div_pos; lia.
    - repeat apply Z.div_lt_upper_bound; lia. }
  rewrite (Z.mod_small (u / 256 / 256 / 256)) by exact H3.
  lia.
Qed.

Lemma byte_at_app (pre l : list Z) (k : nat) :
  Bufio.byte_at (pre ++ l) (List.length pre + k) = Bufio.byte_at l k.
Proof. unfold Bufio.byte_at. apply app_nth2_plus. Qed.

Lemma decode_U32_le_bytes (pre post : list Z) (u : Z) :
  uint32 u ->
  Bufio.decode_U32 (pre ++ le_bytes u ++ post) (List.length pre) = u.
Proof.
  intros H. unfold Bufio.decode_U32.
  rewrite <- (Nat.add_0_r (List.length pre)) at 1.
  rewrite !byte_at_app. unfold le_bytes, Bufio.byte_at. cbn [nth app].
  rewrite <- (bytes_recompose u H) at 5. lia.
Qed.

Lemma decode_U32BE_be_bytes (pre post : list Z) (u : Z) :
  uint32 u ->
  Bufio.decode_U32BE (pre ++ be_bytes u ++ post) (List.length pre) = u.
Proof.
  intros H. unfold Bufio.decode_U32BE.
  rewrite <- (Nat.add_0_r (List.length pre)) at 1.
  rewrite !byte_at_app. unfold be_bytes, Bufio.byte_at. cbn [nth app].
  rewrite <- (bytes_recompose u H) at 5. lia.
Qed.

(** ** Writing *)

Lemma le_bytes_length (n : Z) : List.length (le_bytes n) = 4%nat.
Proof. reflexivity. Qed.

Lemma encoded_path_length (f : Z -> Z) (l : list Z) :
  List.length (flat_map (fun p => le_bytes (f p)) l) = (List.length l * 4)%nat.
Proof.
  induction l as [| p l IH]; [reflexivity |].
  cbn [flat_map]. rewrite length_app, IH. reflexivity.
Qed.

(** Writing a path into a writer with room for it appends the four
    little-endian bytes of each element. *)
Lemma write_path_ok (l : list Z) :
  forall bw,
    Forall (fun p => JS.isSafeInteger p = true) l ->
    (List.length (Bufio.written bw) + List.length l * 4 <= Bufio.size bw)%nat ->
    write_path bw l =
    Ok {| Bufio.size := Bufio.size bw;
          Bufio.written :=
            Bufio.written bw ++ flat_map (fun p => le_bytes (JS.ToUint32 p)) l |}.
Proof.
  induction l as [| p l IH]; intros bw Hsafe Hroom.
  - cbn. rewrite app_nil_r. destruct bw; reflexivity.
  - inversion Hsafe as [| ? ? Hp Hl]; subst.
    cbn [write_path]. unfold Bufio.writeU32, Bufio.w_check.
    cbn [List.length] in Hroom.
    destruct (Nat.leb_spec (List.length (Bufio.written bw) + 4) (Bufio.size bw))
      as [_ | Hbad]; [| lia].
    cbn [bind]. rewrite (encode_U32_bytes p Hp). cbn [bind].
    rewrite IH; cbn [Bufio.size Bufio.written].
    + rewrite <- app_assoc. reflexivity.
    + exact Hl.
    + rewrite length_app, le_bytes_length. lia.
Qed.

(** The layout of the bytes [toRaw] returns. *)
Lemma toRaw_layout (self : KeyOriginInfo) :
  JS.isSafeInteger (fingerPrint self) = true ->
  Forall (fun p => JS.isSafeInteger p = true) (path self) ->
  toRaw self =
  Ok (be_bytes (JS.ToUint32 (fingerPrint self))
        ++ flat_map (fun p => le_bytes (JS.ToUint32 p)) (path self)).
Proof.
  intros Hf Hp. unfold toRaw, toWriter, getSize, Bufio.write.
  unfold Bufio.writeU32BE, Bufio.w_check. cbn [Bufio.written Bufio.size List.length].
  cbn [Nat.add Nat.leb bind]. rewrite (encode_U32BE_bytes _ Hf). cbn [bind].
  rewrite write_path_ok; cbn [Bufio.size Bufio.written app].
  - cbn [bind]. unfold Bufio.render. cbn [Bufio.size Bufio.written].
    assert (Hlen : List.length
                     (be_bytes (JS.ToUint32 (fingerPrint self))
                        ++ flat_map (fun p => le_bytes (JS.ToUint32 p)) (path self))
                   = S (S (S (S (List.length (path self) * 4))))).
    { rewrite length_app, encoded_path_length. reflexivity. }
    cbn [app be_bytes] in Hlen |- *. rewrite Hlen, Nat.eqb_refl. reflexivity.
  - exact Hp.
  - cbn [be_bytes List.length]. lia.
Qed.

(** ** Reading *)

(** The loop over a buffer that holds the encoded elements [l] from the
    offset on reads exactly [l]. *)
Lemma read_path_encoded (l : list Z) :
  forall fuel pre acc,
    Forall uint32 l ->
    (List.length l <= fuel)%nat ->
    read_path fuel
      {| Bufio.data := pre ++ flat_map le_bytes l;
         Bufio.offset := List.length pre |} acc
    = Ok (acc ++ l).
Proof.
  induction l as [| p l IH]; intros fuel pre acc Hl Hfuel.
  - destruct fuel; cbn [read_path flat_map]; unfold Bufio.left, Bufio.r_check;
      cbn [Bufio.data Bufio.offset]; rewrite !app_nil_r, Nat.add_0_r, Nat.leb_refl;
      cbn [bind]; rewrite Nat.sub_diag; reflexivity.
  - inversion Hl as [| ? ? Hp Hl']; subst.
    destruct fuel as [| fuel]; [cbn in Hfuel; lia |].
    cbn [read_path flat_map]. unfold Bufio.left, Bufio.readU32, Bufio.r_check.
    cbn [Bufio.data Bufio.offset].
    rewrite !length_app, le_bytes_length.
    destruct (Nat.leb_spec (List.length pre + 0)
                (List.length pre + (4 + List.length (flat_map le_bytes l))))
      as [_ | Hbad]; [| lia].
    cbn [bind].
    replace (List.length pre + (4 + List.length (flat_map le_bytes l))
             - List.length pre)%nat
      with (S (3 + List.length (flat_map le_bytes l))) by lia.
    cbn [Nat.eqb].
    destruct (Nat.leb_spec (List.length pre + 4)
                (List.length pre + (4 + List.length (flat_map le_bytes l))))
      as [_ | Hbad]; [| lia].
    cbn [bind fst snd].
    rewrite (decode_U32_le_bytes pre _ p Hp).
    replace (List.length pre + 4)%nat with (List.length (pre ++ le_bytes p))
      by (rewrite length_app, le_bytes_length; reflexivity).
    rewrite (app_assoc pre (le_bytes p)).
    rewrite IH.
    + rewrite <- app_assoc. reflexivity.
    + exact Hl'.
    + cbn in Hfuel. lia.
Qed.

(** Decoding the layout of [toRaw_layout] gives the object back. *)
Lemma fromRaw_encoded (fp : Z) (l : list Z) :
  uint32 fp ->
  Forall uint32 l ->
  static_fromRaw (be_bytes fp ++ flat_map le_bytes l)
  = Ok {| fingerPrint := fp; path := l |}.
Proof.
  intros Hf Hl. unfold static_fromRaw, fromRaw, fromReader, Bufio.read.
  unfold Bufio.readU32BE, Bufio.r_check. cbn [Bufio.data Bufio.offset].
  rewrite length_app. cbn [be_bytes List.length Nat.add Nat.leb bind fst snd].
  pose proof (decode_U32BE_be_bytes [] (flat_map le_bytes l) fp Hf) as Hd.
  cbn [app List.length] in Hd. cbn [app be_bytes] in Hd |- *. rewrite Hd.
  pose proof (read_path_encoded l
                (S (S (S (S (List.length (flat_map le_bytes l))))))
                (be_bytes fp) [] Hl) as Hr.
  cbn [be_bytes app List.length path fresh] in Hr |- *.
  rewrite Hr; [reflexivity |].
  rewrite (encoded_path_length (fun p => p)). lia.
Qed.

(** ** Encoding *)

Lemma scenario_layout :
  toRaw scenario
  = Ok (be_bytes (fingerPrint scenario) ++ flat_map le_bytes (path scenario)).
Proof.
  rewrite toRaw_layout.
  - reflexivity.
  - reflexivity.
  - repeat constructor.
Qed.

(** C2, as the code has it: the scenario encodes to
    [DE AD BE EF 2C 00 00 80 00 00 00 80 05 00 00 00], the fingerprint most
    significant byte first ([writeU32BE]) and every path element least
    significant byte first ([writeU32]). *)
Theorem toRaw_scenario :
  toRaw scenario
  = Ok [0xDE; 0xAD; 0xBE; 0xEF; 0x2C; 0x00; 0x00; 0x80;
        0x00; 0x00; 0x00; 0x80; 0x05; 0x00; 0x00; 0x00]
  /\ toRaw scenario
     = Ok (be_bytes (fingerPrint scenario)
             ++ flat_map le_bytes (path scenario)).
Proof.
  split; [| exact scenario_layout].
  rewrite scenario_layout. reflexivity.
Qed.

(** C2, as the specification states it, fails: the bytes of the scenario are
    not the big-endian sequence; the fifth byte is [2C], not [80]. *)
Lemma toRaw_scenario_not_big_endian :
  exists raw,
    toRaw scenario = Ok raw
    /\ nth_error raw 4 = Some 0x2C
    /\ nth_error scenario_bytes_big_endian 4 = Some 0x80
    /\ bytes_eqb raw scenario_bytes_big_endian = false.
Proof.
  eexists. split; [exact scenario_layout |].
  split; [reflexivity |]. split; reflexivity.
Qed.

(** ** Round trip *)

Lemma equals_loop_prefix (mine : list Z) :
  forall pre extra,
    equals_loop (seq (List.length pre) (List.length mine))
      (pre ++ mine) (pre ++ mine ++ extra) = true.
Proof.
  induction mine as [| p mine IH]; intros pre extra; [reflexivity |].
  cbn [List.length seq equals_loop].
  rewrite !nth_error_app2 by lia. rewrite Nat.sub_diag. cbn [nth_error app].
  unfold strict_ne. rewrite Z.eqb_refl. cbn [negb].
  specialize (IH (pre ++ [p]) extra).
  rewrite length_app in IH. cbn [List.length] in IH.
  rewrite Nat.add_1_r in IH. rewrite <- !app_assoc in IH. exact IH.
Qed.

Lemma equals_refl (x : KeyOriginInfo) : equals x x = true.
Proof.
  unfold equals. rewrite Z.eqb_refl. cbn [negb].
  pose proof (equals_loop_prefix (path x) [] []) as H.
  cbn [app List.length] in H. rewrite app_nil_r in H. exact H.
Qed.

Lemma uint32_path_safe (l : list Z) :
  Forall uint32 l -> Forall (fun p => JS.isSafeInteger p = true) l.
Proof. intros H. eapply Forall_impl; [| exact H]. exact uint32_safe. Qed.

Lemma uint32_path_encoding (l : list Z) :
  Forall uint32 l ->
  flat_map (fun p => le_bytes (JS.ToUint32 p)) l = flat_map le_bytes l.
Proof.
  induction 1 as [| p l Hp _ IH]; [reflexivity |].
  cbn [flat_map]. rewrite IH, (ToUint32_small p Hp). reflexivity.
Qed.

(** C4: for a fingerprint and path elements in [0, 2^32), decoding the bytes
    of [toRaw] succeeds and gives an object with the same fingerprint, a path
    of the same length and the same element at every index; [equals] accepts
    the pair. *)
Theorem raw_round_trip (x : KeyOriginInfo) :
  uint32 (fingerPrint x) ->
  Forall uint32 (path x) ->
  exists raw y,
    toRaw x = Ok raw
    /\ static_fromRaw raw = Ok y
    /\ fingerPrint y = fingerPrint x
    /\ List.length (path y) = List.length (path x)
    /\ (forall i, nth_error (path y) i = nth_error (path x) i)
    /\ equals y x = true.
Proof.
  intros Hf Hp.
  exists (be_bytes (fingerPrint x) ++ flat_map le_bytes (path x)), x.
  split.
  - rewrite toRaw_layout.
    + rewrite (ToUint32_small _ Hf), (uint32_path_encoding _ Hp). reflexivity.
    + apply uint32_safe, Hf.
    + apply uint32_path_safe, Hp.
  - split.
    + rewrite (fromRaw_encoded _ _ Hf Hp). destruct x; reflexivity.
    + repeat split. apply equals_refl.
Qed.

Lemma raw_round_trip_witness :
  exists raw y,
    toRaw scenario = Ok raw
    /\ static_fromRaw raw = Ok y
    /\ fingerPrint y = fingerPrint scenario
    /\ List.length (path y) = List.length (path scenario)
    /\ (forall i, nth_error (path y) i = nth_error (path scenario) i)
    /\ equals y scenario = true.
Proof.
  apply (raw_round_trip scenario).
  - unfold uint32, scenario; cbn; lia.
  - unfold scenario; cbn; repeat constructor; unfold uint32; lia.
Defined.

(** C9: an object whose fingerprint is the unset value [-1] encodes without
    error; its first four bytes are [FF FF FF FF], and decoding gives the
    fingerprint [4294967295], which is not the unset value. *)
Theorem unset_fingerprint_round_trip (self : KeyOriginInfo) :
  fingerPrint self = fingerPrint fresh ->
  Forall uint32 (path self) ->
  exists raw,
    toRaw self = Ok raw
    /\ firstn 4 raw = [0xFF; 0xFF; 0xFF; 0xFF]
    /\ static_fromRaw raw
       = Ok {| fingerPrint := 4294967295; path := path self |}
    /\ equals {| fingerPrint := 4294967295; path := path self |} self = false.
Proof.
  intros Hf Hp. cbn [fresh fingerPrint] in Hf.
  exists (be_bytes 4294967295 ++ flat_map le_bytes (path self)).
  split.
  - rewrite toRaw_layout.
    + rewrite Hf, (uint32_path_encoding _ Hp). reflexivity.
    + rewrite Hf. reflexivity.
    + apply uint32_path_safe, Hp.
  - split; [reflexivity |]. split.
    + apply fromRaw_encoded; [unfold uint32; lia | exact Hp].
    + unfold equals. cbn [fingerPrint]. rewrite Hf. reflexivity.
Qed.

Lemma unset_fingerprint_round_trip_witness :
  exists raw,
    toRaw (clear scenario) = Ok raw
    /\ firstn 4 raw = [0xFF; 0xFF; 0xFF; 0xFF]
    /\ static_fromRaw raw
       = Ok {| fingerPrint := 4294967295; path := path (clear scenario) |}
    /\ equals {| fingerPrint := 4294967295; path := path (clear scenario) |}
         (clear scenario) = false.
Proof.
  apply (unset_fingerprint_round_trip (clear scenario)).
  - reflexivity.
  - cbn. constructor.
Defined.

(** ** Decoding and buffer length *)

Lemma well_sized_spec (n : nat) :
  well_sized n = true <-> exists k, n = (4 + 4 * k)%nat.
Proof.
  unfold well_sized. rewrite andb_true_iff, Nat.leb_le, Nat.eqb_eq. split.
  - intros [Hge Hmod]. exists ((n - 4) / 4)%nat.
    pose proof (Nat.div_mod_eq (n - 4) 4) as E. lia.
  - intros [k ->]. split; [lia |].
    replace (4 + 4 * k - 4)%nat with (k * 4)%nat by lia.
    apply Nat.Div0.mod_mul.
Qed.

Lemma mod4_step (n : nat) : (4 <= n)%nat -> ((n - 4) mod 4 = n mod 4)%nat.
Proof.
  intros H. replace n with ((n - 4) + 1 * 4)%nat at 2 by lia.
  now rewrite Nat.Div0.mod_add.
Qed.

(** The loop ends well exactly when the bytes left are a multiple of four;
    otherwise the last read is out of bounds. It never exhausts a budget of
    as many turns as there are bytes left. *)
Lemma read_path_by_length (fuel : nat) :
  forall br acc,
    (Bufio.offset br <= List.length (Bufio.data br))%nat ->
    (List.length (Bufio.data br) - Bufio.offset br <= fuel)%nat ->
    if ((List.length (Bufio.data br) - Bufio.offset br) mod 4 =? 0)%nat
    then exists l, read_path fuel br acc = Ok l
    else read_path fuel br acc = Throw EncodingError.
Proof.
  induction fuel as [| fuel IH]; intros br acc Hoff Hfuel.
  - replace (List.length (Bufio.data br) - Bufio.offset br)%nat with 0%nat by lia.
    cbn [Nat.modulo Nat.eqb]. exists acc.
    cbn [read_path]. unfold Bufio.left, Bufio.r_check.
    destruct (Nat.leb_spec (Bufio.offset br + 0) (List.length (Bufio.data br)));
      [| lia].
    cbn [bind].
    replace (List.length (Bufio.data br) - Bufio.offset br)%nat with 0%nat by lia.
    reflexivity.
  - cbn [read_path]. unfold Bufio.left, Bufio.r_check.
    destruct (Nat.leb_spec (Bufio.offset br + 0) (List.length (Bufio.data br)));
      [| lia].
    cbn [bind].
    set (n := (List.length (Bufio.data br) - Bufio.offset br)%nat) in *.
    destruct (Nat.eqb_spec n 0) as [Hz | Hnz].
    + rewrite Hz. cbn [Nat.modulo Nat.eqb]. exists acc. reflexivity.
    + unfold Bufio.readU32, Bufio.r_check.
      destruct (Nat.leb_spec (Bufio.offset br + 4) (List.length (Bufio.data br)))
        as [Hroom | Hshort].
      * cbn [bind fst snd].
        specialize (IH {| Bufio.data := Bufio.data br;
                          Bufio.offset := Bufio.offset br + 4 |}
                      (acc ++ [Bufio.decode_U32 (Bufio.data br) (Bufio.offset br)])).
        cbn [Bufio.data Bufio.offset] in IH.
        replace (List.length (Bufio.data br) - (Bufio.offset br + 4))%nat
          with (n - 4)%nat in IH by (subst n; lia).
        rewrite mod4_step in IH by (subst n; lia).
        apply IH; subst n; lia.
      * cbn [bind].
        rewrite Nat.mod_small by (subst n; lia).
        destruct (Nat.eqb_spec n 0); [contradiction | reflexivity].
Qed.

(** C5: decoding succeeds on the buffers of length [4 + 4 * k] and throws the
    reader's out-of-bounds error on every other buffer, be it shorter than
    four bytes or with one to three bytes after the last whole group. *)
Theorem fromRaw_length_check (data : list Z) :
  if well_sized (List.length data)
  then exists x, static_fromRaw data = Ok x
  else static_fromRaw data = Throw EncodingError.
Proof.
  unfold well_sized, static_fromRaw, fromRaw, fromReader, Bufio.read.
  unfold Bufio.readU32BE, Bufio.r_check. cbn [Bufio.data Bufio.offset Nat.add].
  destruct (Nat.leb_spec 4 (List.length data)) as [Hge | Hlt];
    cbn [andb bind fst snd]; [| reflexivity].
  pose proof (read_path_by_length (List.length data)
                {| Bufio.data := data; Bufio.offset := 4 |} (path fresh)) as H.
  cbn [Bufio.data Bufio.offset] in H.
  specialize (H Hge ltac:(lia)).
  destruct ((List.length data - 4) mod 4 =? 0)%nat.
  - destruct H as [l Hl]. rewrite Hl. cbn [bind]. eexists. reflexivity.
  - rewrite H. reflexivity.
Qed.

(** A buffer of six bytes, whatever they are, is refused. *)
Lemma fromRaw_six_bytes (a b c d e f : Z) :
  static_fromRaw [a; b; c; d; e; f] = Throw EncodingError.
Proof. reflexivity. Qed.

(** ** Equality *)

(** C1 fails on the code: [equals] walks the keys of [this.path] only, so it
    accepts every argument whose path starts with the path of [this], however
    much longer it is; with paths [[1]] and [[1; 2]] it answers [true] one way
    round and [false] the other. *)
Theorem equals_accepts_longer_path :
  (forall self extra,
      equals self {| fingerPrint := fingerPrint self;
                     path := path self ++ extra |} = true)
  /\ equals {| fingerPrint := -1; path := [1] |}
            {| fingerPrint := -1; path := [1; 2] |} = true
  /\ equals {| fingerPrint := -1; path := [1; 2] |}
            {| fingerPrint := -1; path := [1] |} = false.
Proof.
  split; [| split; reflexivity].
  intros self extra. unfold equals. cbn [fingerPrint path].
  rewrite Z.eqb_refl. cbn [negb].
  exact (equals_loop_prefix (path self) [] extra).
Qed.

(** ** Formatting *)

Lemma string_app_assoc (a b c : string) :
  ((a ++ b) ++ c = a ++ (b ++ c))%string.
Proof.
  induction a as [| ch a IH]; [reflexivity |].
  cbn [append]. now rewrite IH.
Qed.

Lemma string_app_empty (a : string) : (a ++ "" = a)%string.
Proof.
  induction a as [| ch a IH]; [reflexivity |].
  cbn [append]. now rewrite IH.
Qed.

Lemma format_loop_segments (l : list Z) :
  forall acc, format_loop acc l = (acc ++ segments l)%string.
Proof.
  induction l as [| p l IH]; intros acc.
  - cbn [format_loop segments]. now rewrite string_app_empty.
  - cbn [format_loop segments]. cbv zeta. rewrite IH.
    rewrite bitand_HARDENED, bitand_mask.
    unfold segment. now rewrite !string_app_assoc.
Qed.

(** C8: the formatted path is [m] followed, for each element in order, by
    [/], the decimal numeral of the element without its bit 31, and ['] when
    bit 31 is set; the scenario formats to [m/44'/0'/5]. *)
Theorem format_path (self : KeyOriginInfo) :
  fmt_path (format self) = ("m" ++ segments (path self))%string
  /\ fmt_fingerPrint (format self) = fingerPrint self
  /\ fmt_path (format scenario) = "m/44'/0'/5"%string.
Proof.
  split; [| split; reflexivity].
  unfold format. cbn [fmt_path]. apply format_loop_segments.
Qed.

(** For an unsigned 32-bit element, the index shown is the element with
    bit 31 cleared. *)
Lemma segment_index_clearbit (p : Z) :
  uint32 p -> Z.land p (Z.ones 31) = Z.clearbit p 31.
Proof.
  unfold uint32. intros H. apply Z.bits_inj'. intros n Hn.
  rewrite Z.land_spec, Z.clearbit_eqb.
  destruct (Z.eqb_spec 31 n) as [<- | Hne]; cbn [negb].
  - rewrite Z.ones_spec_high by lia. now rewrite !andb_false_r.
  - rewrite andb_true_r.
    destruct (Z.ltb_spec n 31) as [Hlow | Hhigh].
    + rewrite Z.ones_spec_low by lia. now rewrite andb_true_r.
    + rewrite Z.ones_spec_high by lia.
      rewrite andb_false_r. symmetry.
      apply Z.bits_above_log2; [lia |].
      destruct (Z.eq_dec p 0) as [-> | Hp0]; [cbn; lia |].
      apply Z.log2_lt_pow2; [lia |].
      apply Z.lt_le_trans with (2 ^ 32); [lia |].
      apply Z.pow_le_mono_r; lia.
Qed.

(** ** Derivation from a wallet key *)

(** [a | 0x80000000] is the low 31 bits of [a] minus [2^31]: a negative
    number, whatever [a] is. *)
Lemma bitor_HARDENED_value (a : Z) :
  JS.bitor a common.HARDENED = a mod 2 ^ 31 - 2 ^ 31.
Proof.
  unfold JS.bitor, common.HARDENED.
  change (JS.ToInt32 0x80000000) with (- 2 ^ 31).
  pose proof (Z.sub_lor_l_same_r (JS.ToInt32 a) (- 2 ^ 31)) as H.
  change (Z.lnot (- 2 ^ 31)) with (Z.ones 31) in H.
  rewrite <- bitand_mask in H. rewrite bitand_mask in H.
  rewrite Z.land_ones in H by lia.
  assert (Hm : JS.ToInt32 a mod 2 ^ 31 = a mod 2 ^ 31).
  { assert (Hd : (2 ^ 31 | 2 ^ 32)) by (exists 2; reflexivity).
    rewrite <- (Z.mod_mod_divide (JS.ToInt32 a) _ _ Hd).
    rewrite <- (Z.mod_mod_divide a _ _ Hd).
    now rewrite ToInt32_mod. }
  rewrite Hm in H.
  pose proof (Z.mod_pos_bound a (2 ^ 31) ltac:(lia)) as Hb.
  replace (Z.lor (JS.ToInt32 a) (- 2 ^ 31)) with (a mod 2 ^ 31 - 2 ^ 31) by lia.
  apply ToInt32_small. lia.
Qed.

Lemma bitor_HARDENED_negative (a : Z) : JS.bitor a common.HARDENED < 0.
Proof.
  rewrite bitor_HARDENED_value.
  pose proof (Z.mod_pos_bound a (2 ^ 31) ltac:(lia)). lia.
Qed.

Lemma bitor_HARDENED_bit31 (a : Z) :
  Z.testbit (JS.bitor a common.HARDENED) 31 = true.
Proof.
  pose proof (bitor_HARDENED_negative a) as Hn.
  pose proof (bitor_HARDENED_value a) as Hv.
  pose proof (Z.mod_pos_bound a (2 ^ 31) ltac:(lia)) as Hb.
  rewrite int32_sign by lia. now apply Z.ltb_lt.
Qed.

Lemma bitor_HARDENED_low_bits (a : Z) :
  Z.land (JS.bitor a common.HARDENED) (Z.ones 31) = Z.land a (Z.ones 31).
Proof.
  rewrite bitor_HARDENED_value, !Z.land_ones by lia.
  rewrite <- (Z.mod_add _ 1 (2 ^ 31)) by lia.
  replace (a mod 2 ^ 31 - 2 ^ 31 + 1 * 2 ^ 31) with (a mod 2 ^ 31) by lia.
  apply Z.mod_mod. lia.
Qed.

Lemma not_uint32_negative (z : Z) : z < 0 -> JS.is_uint32 (JS.Num z) = false.
Proof.
  intros H. unfold JS.is_uint32, JS.ushr. rewrite Z.shiftr_0_r.
  apply Z.eqb_neq. pose proof (ToUint32_range z). lia.
Qed.

Lemma assert_uint32_cases (v : JS.value) :
  (exists z, v = JS.Num z /\ uint32 z /\ assert_uint32 v = Ok z)
  \/ (JS.is_uint32 v = false /\ assert_uint32 v = Throw AssertionError).
Proof.
  destruct v as [| | b | z | s | l |]; try (right; split; reflexivity).
  unfold assert_uint32, assert.
  destruct (JS.is_uint32 (JS.Num z)) eqn:E.
  - left. exists z. repeat split.
    + unfold JS.is_uint32, JS.ushr in E. rewrite Z.shiftr_0_r in E.
      apply Z.eqb_eq in E. pose proof (ToUint32_range z). lia.
    + unfold JS.is_uint32, JS.ushr in E. rewrite Z.shiftr_0_r in E.
      apply Z.eqb_eq in E. pose proof (ToUint32_range z). lia.
  - right. split; reflexivity.
Qed.

Section CollaboratorProperties.

Variable parsePath : JS.value -> bool -> result (list Z).
Variable hash160_digest : list Z -> list Z.

(** The derivation at the level of bits: from a wallet key whose digest has
    twenty bytes it gives the three-element path
    [account | HARDENED, branch, index], whose first element has bit 31 set
    and the low 31 bits of the account, and the fingerprint made of the first
    four bytes of the digest, most significant first. The number stored for
    the first element is settled by [fromWalletKey_path_signed]. *)
Theorem fromWalletKey_derivation (wk : WalletKey) :
  List.length (hash160_digest (publicKey wk)) = 20%nat ->
  exists b0 b1 b2 b3 rest,
    hash160_digest (publicKey wk) = b0 :: b1 :: b2 :: b3 :: rest
    /\ static_fromWalletKey parsePath hash160_digest wk
       = Ok {| fingerPrint := b0 * 16777216 + b1 * 65536 + b2 * 256 + b3;
               path := [JS.bitor (account wk) common.HARDENED;
                        branch wk; index wk] |}
    /\ Z.testbit (JS.bitor (account wk) common.HARDENED) 31 = true
    /\ Z.land (JS.bitor (account wk) common.HARDENED) (Z.ones 31)
       = Z.land (account wk) (Z.ones 31).
Proof.
  intros Hlen.
  unfold static_fromWalletKey, constructor, fromWalletKey, Buffer_readUInt32BE.
  cbn [bind]. cbv zeta.
  destruct (hash160_digest (publicKey wk)) as [| b0 [| b1 [| b2 [| b3 rest]]]];
    try discriminate Hlen.
  exists b0, b1, b2, b3, rest. split; [reflexivity |]. split.
  - reflexivity.
  - split; [apply bitor_HARDENED_bit31 | apply bitor_HARDENED_low_bits].
Qed.

(** C3 fails on the code: the derivation from a wallet key stores
    [account | HARDENED], a negative number, as the first path element, which
    the check of [fromOptions] on path elements refuses; hence cloning the
    derived object throws. *)
Theorem fromWalletKey_stores_negative (wk : WalletKey) :
  (4 <= List.length (hash160_digest (publicKey wk)))%nat ->
  exists k first,
    static_fromWalletKey parsePath hash160_digest wk = Ok k
    /\ nth_error (path k) 0 = Some first
    /\ first < 0
    /\ JS.is_uint32 (JS.Num first) = false
    /\ clone parsePath k = Throw AssertionError.
Proof.
  intros Hlen.
  unfold static_fromWalletKey, constructor, fromWalletKey, Buffer_readUInt32BE.
  cbn [bind Nat.add]. cbv zeta.
  destruct (Nat.leb_spec 4 (List.length (hash160_digest (publicKey wk))))
    as [_ | Hbad]; [| lia].
  cbn [bind]. eexists. exists (JS.bitor (account wk) common.HARDENED).
  split; [reflexivity |].
  pose proof (bitor_HARDENED_negative (account wk)) as Hneg.
  pose proof (not_uint32_negative _ Hneg) as Hnot.
  split; [reflexivity |]. split; [exact Hneg |]. split; [exact Hnot |].
  unfold clone, constructor, fromOptions.
  cbn [opt_fingerPrint opt_path fingerPrint path fresh app map].
  assert (Hpath : forall fp,
             (p <- every_uint32
                     [JS.Num (JS.bitor (account wk) common.HARDENED);
                      JS.Num (branch wk); JS.Num (index wk)] ;;
              Ok {| fingerPrint := fp; path := p |})
             = Throw AssertionError).
  { intros fp. cbn [every_uint32]. unfold assert_uint32 at 1.
    rewrite Hnot. reflexivity. }
  destruct (JS.truthy (JS.Num _)).
  - destruct (assert_uint32_cases
                (JS.Num (Bufio.decode_U32BE (hash160_digest (publicKey wk)) 0)))
      as [(z & _ & _ & ->) | [_ ->]]; cbn [bind JS.truthy].
    + apply Hpath.
    + reflexivity.
  - cbn [bind JS.truthy]. apply Hpath.
Qed.

End CollaboratorProperties.

Lemma fromWalletKey_derivation_witness :
  exists b0 b1 b2 b3 rest,
    sample_digest (publicKey sample_key) = b0 :: b1 :: b2 :: b3 :: rest
    /\ static_fromWalletKey sample_parsePath sample_digest sample_key
       = Ok {| fingerPrint := b0 * 16777216 + b1 * 65536 + b2 * 256 + b3;
               path := [JS.bitor (account sample_key) common.HARDENED;
                        branch sample_key; index sample_key] |}
    /\ Z.testbit (JS.bitor (account sample_key) common.HARDENED) 31 = true
    /\ Z.land (JS.bitor (account sample_key) common.HARDENED) (Z.ones 31)
       = Z.land (account sample_key) (Z.ones 31).
Proof.
  apply (fromWalletKey_derivation sample_parsePath sample_digest sample_key).
  reflexivity.
Defined.

Lemma fromWalletKey_stores_negative_witness :
  exists k first,
    static_fromWalletKey sample_parsePath sample_digest sample_key = Ok k
    /\ nth_error (path k) 0 = Some first
    /\ first < 0
    /\ JS.is_uint32 (JS.Num first) = false
    /\ clone sample_parsePath k = Throw AssertionError.
Proof.
  apply (fromWalletKey_stores_negative sample_parsePath sample_digest sample_key).
  cbn. lia.
Defined.

(** With account 5, branch 0 and index 3 the path stored is
    [[-2147483643; 0; 3]]. *)
Lemma fromWalletKey_sample :
  static_fromWalletKey sample_parsePath sample_digest sample_key
  = Ok {| fingerPrint := 0x02DEADBE; path := [-2147483643; 0; 3] |}.
Proof. reflexivity. Qed.

(** ** A fingerprint of zero *)

Section ZeroFingerprint.

Variable parsePath : JS.value -> bool -> result (list Z).

(** C7: importing a JSON object whose fingerprint is the number 0 does what
    importing the object without the field does, and a successful import
    leaves the fingerprint at the unset value [-1], not at 0. *)
Theorem fromJSON_zero_fingerprint (p : JS.value) (k : KeyOriginInfo) :
  static_fromJSON parsePath
    {| json_fingerPrint := JS.Num 0; json_path := p |} = Ok k ->
  fingerPrint k = fingerPrint fresh
  /\ (fingerPrint k =? 0) = false
  /\ static_fromJSON parsePath
       {| json_fingerPrint := JS.Num 0; json_path := p |}
     = static_fromJSON parsePath
         {| json_fingerPrint := JS.Undefined; json_path := p |}.
Proof.
  unfold static_fromJSON, constructor, fromJSON.
  cbn [bind json_fingerPrint json_path JS.truthy Z.eqb negb].
  destruct (if JS.truthy p then _ else _) as [l | e |]; cbn [bind];
    intros H; try discriminate H.
  injection H as <-. repeat split.
Qed.

(** C10: constructing from an options object whose [fingerPrint] is the
    number 0 does what constructing without the field does, and a successful
    construction leaves the fingerprint at the unset value [-1], not at 0. *)
Theorem fromOptions_zero_fingerPrint (p : JS.value) (k : KeyOriginInfo) :
  constructor parsePath
    (Some {| opt_fingerPrint := JS.Num 0; opt_path := p |}) = Ok k ->
  fingerPrint k = fingerPrint fresh
  /\ (fingerPrint k =? 0) = false
  /\ static_fromOptions parsePath
       {| opt_fingerPrint := JS.Num 0; opt_path := p |} = Ok k
  /\ constructor parsePath
       (Some {| opt_fingerPrint := JS.Num 0; opt_path := p |})
     = constructor parsePath
         (Some {| opt_fingerPrint := JS.Undefined; opt_path := p |}).
Proof.
  unfold static_fromOptions, constructor, fromOptions.
  cbn [bind opt_fingerPrint opt_path JS.truthy Z.eqb negb].
  destruct (if JS.truthy p then _ else _) as [l | e |]; cbn [bind];
    intros H; try discriminate H.
  injection H as <-. repeat split.
Qed.

End ZeroFingerprint.

Lemma fromJSON_zero_fingerprint_witness :
  fingerPrint {| fingerPrint := -1; path := [0x8000002C; 0x80000000; 5] |}
  = fingerPrint fresh
  /\ (fingerPrint {| fingerPrint := -1; path := [0x8000002C; 0x80000000; 5] |}
      =? 0) = false
  /\ static_fromJSON sample_parsePath
       {| json_fingerPrint := JS.Num 0;
          json_path := JS.Arr [JS.Num 0x8000002C; JS.Num 0x80000000; JS.Num 5] |}
     = static_fromJSON sample_parsePath
         {| json_fingerPrint := JS.Undefined;
            json_path := JS.Arr [JS.Num 0x8000002C; JS.Num 0x80000000; JS.Num 5] |}.
Proof.
  apply (fromJSON_zero_fingerprint sample_parsePath
           (JS.Arr [JS.Num 0x8000002C; JS.Num 0x80000000; JS.Num 5])).
  reflexivity.
Defined.

Lemma fromOptions_zero_fingerPrint_witness :
  fingerPrint {| fingerPrint := -1; path := [0x8000002C; 0x80000000; 5] |}
  = fingerPrint fresh
  /\ (fingerPrint {| fingerPrint := -1; path := [0x8000002C; 0x80000000; 5] |}
      =? 0) = false
  /\ static_fromOptions sample_parsePath
       {| opt_fingerPrint := JS.Num 0;
          opt_path := JS.Arr [JS.Num 0x8000002C; JS.Num 0x80000000; JS.Num 5] |}
     = Ok {| fingerPrint := -1; path := [0x8000002C; 0x80000000; 5] |}
  /\ constructor sample_parsePath
       (Some {| opt_fingerPrint := JS.Num 0;
                opt_path := JS.Arr [JS.Num 0x8000002C; JS.Num 0x80000000; JS.Num 5] |})
     = constructor sample_parsePath
         (Some {| opt_fingerPrint := JS.Undefined;
                  opt_path := JS.Arr [JS.Num 0x8000002C; JS.Num 0x80000000; JS.Num 5] |}).
Proof.
  apply (fromOptions_zero_fingerPrint sample_parsePath
           (JS.Arr [JS.Num 0x8000002C; JS.Num 0x80000000; JS.Num 5])).
  reflexivity.
Defined.

(** ** What [equals] and [clone] do beyond the claims *)

Lemma skipn_nth_error_cons (A : Type) (n : nat) :
  forall (l rest : list A) (x : A),
    nth_error l n = Some x -> skipn (S n) l = rest -> skipn n l = x :: rest.
Proof.
  induction n as [| n IH]; intros [| y l] rest x Hn Hs; try discriminate Hn.
  - cbn in Hn, Hs |- *. congruence.
  - cbn [nth_error] in Hn. cbn [skipn]. apply IH; assumption.
Qed.

Lemma equals_loop_true (mine : list Z) :
  forall pre theirs,
    equals_loop (seq (List.length pre) (List.length mine)) (pre ++ mine) theirs
    = true ->
    exists extra, skipn (List.length pre) theirs = mine ++ extra.
Proof.
  induction mine as [| p mine IH]; intros pre theirs H.
  - exists (skipn (List.length pre) theirs). reflexivity.
  - cbn [List.length seq equals_loop] in H.
    rewrite nth_error_app2 in H by lia.
    rewrite Nat.sub_diag in H. cbn [nth_error] in H.
    destruct (nth_error theirs (List.length pre)) as [q |] eqn:Hq;
      cbn [strict_ne] in H; [| discriminate H].
    destruct (Z.eqb_spec p q) as [<- | Hne]; cbn [negb] in H; [| discriminate H].
    specialize (IH (pre ++ [p]) theirs).
    rewrite length_app, Nat.add_1_r, <- app_assoc in IH.
    destruct (IH H) as [extra He].
    exists extra. cbn [app]. now apply skipn_nth_error_cons.
Qed.

(** [equals] answers [true] exactly when the fingerprints are the same number
    and the path of the argument starts with the path of [this]. *)
Theorem equals_iff_prefix (self keyInfo : KeyOriginInfo) :
  equals self keyInfo = true
  <-> fingerPrint self = fingerPrint keyInfo
      /\ exists extra, path keyInfo = path self ++ extra.
Proof.
  unfold equals. split.
  - destruct (Z.eqb_spec (fingerPrint self) (fingerPrint keyInfo)) as [Hf | Hf];
      cbn [negb]; [| discriminate].
    intros H. split; [exact Hf |].
    exact (equals_loop_true (path self) [] (path keyInfo) H).
  - intros [Hf [extra He]]. rewrite Hf, Z.eqb_refl, He. cbn [negb].
    exact (equals_loop_prefix (path self) [] extra).
Qed.

(** Cloning an object whose fingerprint is unset throws: the constructor
    takes the fingerprint [-1] for a value to check, and it is no unsigned
    32-bit integer. *)
Theorem clone_unset_throws
  (parsePath : JS.value -> bool -> result (list Z)) (l : list Z) :
  clone parsePath {| fingerPrint := fingerPrint fresh; path := l |}
  = Throw AssertionError.
Proof.
  unfold clone, constructor, fromOptions.
  cbn [opt_fingerPrint opt_path fingerPrint fresh JS.truthy Z.eqb negb].
  destruct (assert_uint32_cases (JS.Num (-1))) as [(z & _ & _ & E) | [_ E]].
  - discriminate E.
  - rewrite E. reflexivity.
Qed.

(** ** The range check of the structured construction paths *)

Lemma every_uint32_range (l : list JS.value) :
  forall zs, every_uint32 l = Ok zs -> Forall uint32 zs.
Proof.
  induction l as [| v l IH]; intros zs H.
  - injection H as <-. constructor.
  - cbn [every_uint32] in H.
    destruct (assert_uint32_cases v) as [(z & _ & Hz & E) | [_ E]];
      rewrite E in H; cbn [bind] in H; [| discriminate H].
    destruct (every_uint32 l) as [zs' | e |]; cbn [bind] in H;
      try discriminate H.
    injection H as <-. constructor; [exact Hz | now apply IH].
Qed.

Lemma push_each_range (l : list JS.value) :
  forall acc zs,
    Forall uint32 acc -> push_each acc l = Ok zs -> Forall uint32 zs.
Proof.
  induction l as [| v l IH]; intros acc zs Hacc H.
  - injection H as <-. exact Hacc.
  - cbn [push_each] in H.
    destruct (assert_uint32_cases v) as [(z & _ & Hz & E) | [_ E]];
      rewrite E in H; cbn [bind] in H; [| discriminate H].
    apply (IH (acc ++ [z])); [| exact H].
    apply Forall_app. split; [exact Hacc |]. constructor; [exact Hz | constructor].
Qed.

(** Construction from an options object with an array for a path keeps only
    unsigned 32-bit elements, unlike the derivation from a wallet key. *)
Lemma fromOptions_array_range
  (parsePath : JS.value -> bool -> result (list Z))
  (fp : JS.value) (l : list JS.value) (k : KeyOriginInfo) :
  static_fromOptions parsePath {| opt_fingerPrint := fp; opt_path := JS.Arr l |}
  = Ok k ->
  Forall uint32 (path k)
  /\ (fingerPrint k = fingerPrint fresh \/ uint32 (fingerPrint k)).
Proof.
  unfold static_fromOptions, constructor, fromOptions.
  cbn [bind opt_fingerPrint opt_path JS.truthy].
  intros H.
  destruct (JS.truthy fp).
  - destruct (assert_uint32_cases fp) as [(z & _ & Hz & E) | [_ E]];
      rewrite E in H; cbn [bind] in H; [| discriminate H].
    destruct (every_uint32 l) as [zs |e |] eqn:El; cbn [bind] in H;
      try discriminate H.
    injection H as <-. cbn [path fingerPrint]. split.
    + exact (every_uint32_range l zs El).
    + right. exact Hz.
  - cbn [bind] in H.
    destruct (every_uint32 l) as [zs |e |] eqn:El; cbn [bind] in H;
      try discriminate H.
    injection H as <-. cbn [path fingerPrint]. split.
    + exact (every_uint32_range l zs El).
    + left. reflexivity.
Qed.

(** Importing a JSON object with a non-empty array for a path keeps only
    unsigned 32-bit elements as well. *)
Lemma fromJSON_array_range
  (parsePath : JS.value -> bool -> result (list Z))
  (fp v : JS.value) (l : list JS.value) (k : KeyOriginInfo) :
  static_fromJSON parsePath
    {| json_fingerPrint := fp; json_path := JS.Arr (v :: l) |} = Ok k ->
  Forall uint32 (path k)
  /\ (fingerPrint k = fingerPrint fresh \/ uint32 (fingerPrint k)).
Proof.
  unfold static_fromJSON, constructor, fromJSON.
  cbn [bind json_fingerPrint json_path JS.truthy path fresh].
  intros H.
  assert (Hnil : Forall uint32 (@nil Z)) by constructor.
  destruct (JS.truthy fp).
  - destruct (assert_uint32_cases fp) as [(z & _ & Hz & E) | [_ E]];
      rewrite E in H; cbn [bind] in H; [| discriminate H].
    destruct (push_each [] (v :: l)) as [zs |e |] eqn:El; cbn [bind] in H;
      try discriminate H.
    injection H as <-. cbn [path fingerPrint]. split.
    + exact (push_each_range (v :: l) [] zs Hnil El).
    + right. exact Hz.
  - cbn [bind] in H.
    destruct (push_each [] (v :: l)) as [zs |e |] eqn:El; cbn [bind] in H;
      try discriminate H.
    injection H as <-. cbn [path fingerPrint]. split.
    + exact (push_each_range (v :: l) [] zs Hnil El).
    + left. reflexivity.
Qed.

(** ** [equals] as an order *)

Lemma equals_true_prefix (a b : KeyOriginInfo) :
  equals a b = true ->
  fingerPrint a = fingerPrint b /\ exists extra, path b = path a ++ extra.
Proof.
  unfold equals.
  destruct (Z.eqb_spec (fingerPrint a) (fingerPrint b)) as [Hf | Hf];
    cbn [negb]; [| discriminate].
  intros H. split; [exact Hf |].
  exact (equals_loop_true (path a) [] (path b) H).
Qed.

Lemma prefix_equals_true (a b : KeyOriginInfo) (extra : list Z) :
  fingerPrint a = fingerPrint b -> path b = path a ++ extra ->
  equals a b = true.
Proof.
  intros Hf Hp. unfold equals. rewrite Hf, Z.eqb_refl, Hp. cbn [negb].
  exact (equals_loop_prefix (path a) [] extra).
Qed.

(** [equals] answers [true] in both directions exactly for two objects with
    the same fingerprint and the same path: the comparison a caller has to
    make to tell two origins apart. *)
Theorem equals_both_ways (a b : KeyOriginInfo) :
  equals a b && equals b a = true <-> a = b.
Proof.
  split.
  - intros H. apply andb_true_iff in H. destruct H as [Hab Hba].
    apply equals_true_prefix in Hab. apply equals_true_prefix in Hba.
    destruct Hab as [Hf [e1 H1]]. destruct Hba as [_ [e2 H2]].
    assert (He : e1 = []).
    { assert (Hl : List.length (path b)
                   = (List.length (path b) + List.length e2
                      + List.length e1)%nat).
      { rewrite H1 at 1. rewrite H2 at 1. now rewrite !length_app. }
      destruct e1; [reflexivity | cbn [List.length] in Hl; lia]. }
    subst e1. rewrite app_nil_r in H1.
    destruct a, b. cbn [fingerPrint path] in *. congruence.
  - intros ->. now rewrite equals_refl.
Qed.

(** [equals] is transitive: with [equals_refl] it orders the objects of one
    fingerprint by path prefix. *)
Theorem equals_transitive (a b c : KeyOriginInfo) :
  equals a b = true -> equals b c = true -> equals a c = true.
Proof.
  intros Hab Hbc.
  apply equals_true_prefix in Hab. apply equals_true_prefix in Hbc.
  destruct Hab as [Hf1 [e1 H1]]. destruct Hbc as [Hf2 [e2 H2]].
  apply prefix_equals_true with (extra := e1 ++ e2).
  - congruence.
  - rewrite H2, H1. now rewrite app_assoc.
Qed.

Lemma equals_transitive_witness :
  equals {| fingerPrint := 7; path := [1] |}
         {| fingerPrint := 7; path := [1; 2; 3] |} = true.
Proof.
  apply (equals_transitive
           {| fingerPrint := 7; path := [1] |}
           {| fingerPrint := 7; path := [1; 2] |}
           {| fingerPrint := 7; path := [1; 2; 3] |}); reflexivity.
Defined.

(** ** Cloning *)

Lemma assert_uint32_ok (z : Z) : uint32 z -> assert_uint32 (JS.Num z) = Ok z.
Proof.
  intros H. unfold assert_uint32, assert, JS.is_uint32, JS.ushr.
  rewrite Z.shiftr_0_r, (ToUint32_small z H), Z.eqb_refl. reflexivity.
Qed.

Lemma every_uint32_numbers (l : list Z) :
  Forall uint32 l -> every_uint32 (map JS.Num l) = Ok l.
Proof.
  induction 1 as [| z l Hz _ IH]; [reflexivity |].
  cbn [map every_uint32]. rewrite (assert_uint32_ok z Hz), IH. reflexivity.
Qed.

(** A clone of an object with a nonzero unsigned 32-bit fingerprint and
    unsigned 32-bit path elements is the object itself, field for field. *)
Theorem clone_copies
  (parsePath : JS.value -> bool -> result (list Z)) (self : KeyOriginInfo) :
  uint32 (fingerPrint self) ->
  fingerPrint self <> 0 ->
  Forall uint32 (path self) ->
  clone parsePath self = Ok self.
Proof.
  intros Hf Hnz Hp. unfold clone, constructor, fromOptions.
  cbn [opt_fingerPrint opt_path JS.truthy].
  destruct (Z.eqb_spec (fingerPrint self) 0) as [E | _]; [contradiction |].
  cbn [negb]. rewrite (assert_uint32_ok _ Hf). cbn [bind].
  rewrite (every_uint32_numbers _ Hp). cbn [bind].
  destruct self; reflexivity.
Qed.

Lemma clone_copies_witness : clone sample_parsePath scenario = Ok scenario.
Proof.
  apply (clone_copies sample_parsePath scenario).
  - unfold uint32, scenario; cbn; lia.
  - unfold scenario; cbn; lia.
  - unfold scenario; cbn; repeat constructor; unfold uint32; lia.
Defined.

(** A clone of an object whose fingerprint is 0 has the unset fingerprint
    [-1]: the constructor skips a fingerprint of 0. *)
Theorem clone_zero_fingerprint
  (parsePath : JS.value -> bool -> result (list Z)) (l : list Z) :
  Forall uint32 l ->
  clone parsePath {| fingerPrint := 0; path := l |}
  = Ok {| fingerPrint := -1; path := l |}.
Proof.
  intros Hp. unfold clone, constructor, fromOptions.
  cbn [opt_fingerPrint opt_path JS.truthy fingerPrint path Z.eqb negb bind fresh].
  rewrite (every_uint32_numbers _ Hp). reflexivity.
Qed.

Lemma clone_zero_fingerprint_witness :
  clone sample_parsePath {| fingerPrint := 0; path := [0x8000002C; 5] |}
  = Ok {| fingerPrint := -1; path := [0x8000002C; 5] |}.
Proof.
  apply (clone_zero_fingerprint sample_parsePath [0x8000002C; 5]).
  repeat constructor; unfold uint32; lia.
Defined.

(** ** Validation of the structured construction paths *)

Lemma assert_uint32_value (v : JS.value) :
  assert_uint32 v
  = if JS.is_uint32 v then Ok (hd 0 (numbers [v])) else Throw AssertionError.
Proof.
  destruct (assert_uint32_cases v) as [(z & -> & Hz & E) | [Hn E]].
  - rewrite E. unfold JS.is_uint32, JS.ushr.
    rewrite Z.shiftr_0_r, (ToUint32_small z Hz), Z.eqb_refl. reflexivity.
  - rewrite E, Hn. reflexivity.
Qed.

Lemma numbers_cons_uint32 (v : JS.value) (l : list JS.value) :
  JS.is_uint32 v = true -> numbers (v :: l) = hd 0 (numbers [v]) :: numbers l.
Proof.
  destruct v; cbn; intros H; try discriminate H. reflexivity.
Qed.

Lemma every_uint32_forallb (l : list JS.value) :
  every_uint32 l
  = if forallb JS.is_uint32 l then Ok (numbers l) else Throw AssertionError.
Proof.
  induction l as [| v l IH]; [reflexivity |].
  cbn [every_uint32 forallb]. rewrite assert_uint32_value, IH.
  destruct (JS.is_uint32 v) eqn:Hv; cbn [bind andb]; [| reflexivity].
  destruct (forallb JS.is_uint32 l); cbn [bind]; [| reflexivity].
  now rewrite (numbers_cons_uint32 v l Hv).
Qed.

Lemma push_each_forallb (l : list JS.value) :
  forall acc,
    push_each acc l
    = if forallb JS.is_uint32 l then Ok (acc ++ numbers l)
      else Throw AssertionError.
Proof.
  induction l as [| v l IH]; intros acc.
  - cbn. now rewrite app_nil_r.
  - cbn [push_each forallb]. rewrite assert_uint32_value.
    destruct (JS.is_uint32 v) eqn:Hv; cbn [bind andb]; [| reflexivity].
    rewrite IH. destruct (forallb JS.is_uint32 l); [| reflexivity].
    rewrite (numbers_cons_uint32 v l Hv), <- app_assoc. reflexivity.
Qed.

(** Given an array for a path and no fingerprint, [fromOptions] replaces the
    path of the object by the elements of the array when every element is an
    unsigned 32-bit number, the empty array included, and throws an assertion
    error otherwise; the path parser is not consulted. *)
Theorem fromOptions_array_path
  (parsePath : JS.value -> bool -> result (list Z))
  (self : KeyOriginInfo) (l : list JS.value) :
  fromOptions parsePath self
    {| opt_fingerPrint := JS.Undefined; opt_path := JS.Arr l |}
  = if forallb JS.is_uint32 l
    then Ok {| fingerPrint := fingerPrint self; path := numbers l |}
    else Throw AssertionError.
Proof.
  unfold fromOptions. cbn [opt_fingerPrint opt_path JS.truthy bind].
  rewrite every_uint32_forallb.
  destruct (forallb JS.is_uint32 l); reflexivity.
Qed.

(** Given a non-empty array for a path and no fingerprint, the static
    [fromJSON] returns an object with the unset fingerprint and the elements
    of the array for a path when every element is an unsigned 32-bit number,
    and throws an assertion error otherwise; the path parser is not
    consulted. *)
Theorem fromJSON_array_path
  (parsePath : JS.value -> bool -> result (list Z))
  (v : JS.value) (l : list JS.value) :
  static_fromJSON parsePath
    {| json_fingerPrint := JS.Undefined; json_path := JS.Arr (v :: l) |}
  = if forallb JS.is_uint32 (v :: l)
    then Ok {| fingerPrint := fingerPrint fresh; path := numbers (v :: l) |}
    else Throw AssertionError.
Proof.
  unfold static_fromJSON, constructor, fromJSON.
  cbn [json_fingerPrint json_path JS.truthy bind path fresh].
  rewrite push_each_forallb.
  destruct (forallb JS.is_uint32 (v :: l)); reflexivity.
Qed.

(** A fingerprint that is truthy and not an unsigned 32-bit number (a
    negative number, a number from [2^32] on, a string, [true], an object)
    makes [fromOptions] and [fromJSON] throw an assertion error, whatever the
    path field holds. *)
Theorem invalid_fingerprint_throws
  (parsePath : JS.value -> bool -> result (list Z))
  (self : KeyOriginInfo) (fp p : JS.value) :
  JS.truthy fp = true ->
  JS.is_uint32 fp = false ->
  fromOptions parsePath self {| opt_fingerPrint := fp; opt_path := p |}
  = Throw AssertionError
  /\ fromJSON parsePath self {| json_fingerPrint := fp; json_path := p |}
     = Throw AssertionError.
Proof.
  intros Ht Hn. unfold fromOptions, fromJSON.
  cbn [opt_fingerPrint opt_path json_fingerPrint json_path].
  rewrite Ht, assert_uint32_value, Hn. split; reflexivity.
Qed.

Lemma invalid_fingerprint_throws_witness :
  fromOptions sample_parsePath fresh
    {| opt_fingerPrint := JS.Num 4294967296; opt_path := JS.Arr [JS.Num 1] |}
  = Throw AssertionError
  /\ fromJSON sample_parsePath fresh
       {| json_fingerPrint := JS.Num 4294967296;
          json_path := JS.Arr [JS.Num 1] |}
     = Throw AssertionError.
Proof.
  apply (invalid_fingerprint_throws sample_parsePath fresh
           (JS.Num 4294967296) (JS.Arr [JS.Num 1])); reflexivity.
Defined.

(** ** Decoding buffers of bytes *)

Lemma byte_at_byte (data : list Z) (off : nat) :
  Forall byte data -> (off < List.length data)%nat ->
  byte (Bufio.byte_at data off).
Proof.
  intros H Hoff. unfold Bufio.byte_at.
  exact (proj1 (Forall_nth byte data) H off 0 Hoff).
Qed.

Lemma split_byte (b r : Z) :
  byte b -> (b + r * 256) mod 256 = b /\ (b + r * 256) / 256 = r.
Proof.
  unfold byte. intros H. split.
  - symmetry. apply Z.mod_unique_pos with (q := r); lia.
  - symmetry. apply Z.div_unique_pos with (r := b); lia.
Qed.

Lemma le_bytes_compose (b0 b1 b2 b3 : Z) :
  byte b0 -> byte b1 -> byte b2 -> byte b3 ->
  le_bytes (b0 + b1 * 256 + b2 * 65536 + b3 * 16777216) = [b0; b1; b2; b3]
  /\ be_bytes (b3 * 16777216 + b2 * 65536 + b1 * 256 + b0) = [b3; b2; b1; b0]
  /\ uint32 (b0 + b1 * 256 + b2 * 65536 + b3 * 16777216).
Proof.
  intros H0 H1 H2 H3.
  set (n := b0 + b1 * 256 + b2 * 65536 + b3 * 16777216).
  replace (b3 * 16777216 + b2 * 65536 + b1 * 256 + b0) with n by (subst n; lia).
  assert (E0 : n = b0 + (b1 + (b2 + b3 * 256) * 256) * 256) by (subst n; lia).
  destruct (split_byte b0 (b1 + (b2 + b3 * 256) * 256) H0) as [M0 D0].
  destruct (split_byte b1 (b2 + b3 * 256) H1) as [M1 D1].
  destruct (split_byte b2 b3 H2) as [M2 D2].
  rewrite <- E0 in M0, D0.
  assert (Q2 : n / 65536 = b2 + b3 * 256).
  { replace 65536 with (256 * 256) by reflexivity.
    rewrite <- Z.div_div by lia. now rewrite D0, D1. }
  assert (Q3 : n / 16777216 = b3).
  { replace 16777216 with (256 * 256 * 256) by reflexivity.
    rewrite <- !Z.div_div by lia. now rewrite D0, D1, D2. }
  unfold le_bytes, be_bytes. rewrite M0, D0, M1, Q2, M2, Q3.
  rewrite (Z.mod_small b3) by exact H3.
  repeat split; unfold byte in *; subst n; lia.
Qed.

Lemma skipn_nth_cons (l : list Z) :
  forall n, (n < List.length l)%nat ->
            skipn n l = Bufio.byte_at l n :: skipn (S n) l.
Proof.
  induction l as [| x l IH]; intros n Hn; [cbn in Hn; lia |].
  destruct n as [| n]; [reflexivity |].
  cbn [skipn]. unfold Bufio.byte_at. cbn [nth].
  apply IH. cbn in Hn. lia.
Qed.

Lemma skipn_four (data : list Z) (off : nat) :
  (off + 4 <= List.length data)%nat ->
  skipn off data
  = [Bufio.byte_at data off; Bufio.byte_at data (off + 1);
     Bufio.byte_at data (off + 2); Bufio.byte_at data (off + 3)]
      ++ skipn (off + 4) data.
Proof.
  intros H.
  rewrite (skipn_nth_cons data off) by lia.
  rewrite (skipn_nth_cons data (S off)) by lia.
  rewrite (skipn_nth_cons data (S (S off))) by lia.
  rewrite (skipn_nth_cons data (S (S (S off)))) by lia.
  replace (off + 1)%nat with (S off) by lia.
  replace (off + 2)%nat with (S (S off)) by lia.
  replace (off + 3)%nat with (S (S (S off))) by lia.
  replace (off + 4)%nat with (S (S (S (S off)))) by lia.
  reflexivity.
Qed.

(** What the loop has read is, byte for byte, what the buffer held from the
    offset on. *)
Lemma read_path_sound (fuel : nat) :
  forall br acc l,
    Forall byte (Bufio.data br) ->
    read_path fuel br acc = Ok l ->
    exists l',
      l = acc ++ l'
      /\ Forall uint32 l'
      /\ flat_map le_bytes l' = skipn (Bufio.offset br) (Bufio.data br).
Proof.
  induction fuel as [| fuel IH]; intros br acc l Hb H;
    cbn [read_path] in H; unfold Bufio.left, Bufio.r_check in H;
    destruct (Nat.leb_spec (Bufio.offset br + 0) (List.length (Bufio.data br)))
      as [Hoff | Hoff]; cbn [bind] in H; try discriminate H;
    destruct (Nat.eqb_spec (List.length (Bufio.data br) - Bufio.offset br) 0)
      as [Hz | Hnz]; try discriminate H.
  - injection H as <-. exists []. rewrite app_nil_r. repeat split.
    + constructor.
    + cbn [flat_map]. symmetry. apply skipn_all2. lia.
  - injection H as <-. exists []. rewrite app_nil_r. repeat split.
    + constructor.
    + cbn [flat_map]. symmetry. apply skipn_all2. lia.
  - unfold Bufio.readU32, Bufio.r_check in H.
    destruct (Nat.leb_spec (Bufio.offset br + 4) (List.length (Bufio.data br)))
      as [Hroom | Hshort]; cbn [bind fst snd] in H; [| discriminate H].
    apply IH in H; [| exact Hb]. cbn [Bufio.data Bufio.offset] in H.
    destruct H as (l' & -> & Hl' & Hflat).
    set (o := Bufio.offset br) in *. set (d := Bufio.data br) in *.
    destruct (le_bytes_compose
                (Bufio.byte_at d o) (Bufio.byte_at d (o + 1))
                (Bufio.byte_at d (o + 2)) (Bufio.byte_at d (o + 3)))
      as (Hle & _ & Hu); try (apply byte_at_byte; [exact Hb | lia]).
    exists (Bufio.decode_U32 d o :: l'). repeat split.
    + now rewrite <- app_assoc.
    + constructor; [exact Hu | exact Hl'].
    + cbn [flat_map]. unfold Bufio.decode_U32. rewrite Hle, Hflat.
      symmetry. apply skipn_four. exact Hroom.
Qed.

Lemma fromRaw_decoded (data : list Z) (k : KeyOriginInfo) :
  Forall byte data ->
  static_fromRaw data = Ok k ->
  uint32 (fingerPrint k)
  /\ Forall uint32 (path k)
  /\ data = be_bytes (fingerPrint k) ++ flat_map le_bytes (path k).
Proof.
  intros Hb H.
  unfold static_fromRaw, fromRaw, fromReader, Bufio.read in H.
  unfold Bufio.readU32BE, Bufio.r_check in H.
  cbn [Bufio.data Bufio.offset Nat.add] in H.
  destruct (Nat.leb_spec 4 (List.length data)) as [Hlen | Hlen];
    cbn [bind fst snd] in H; [| discriminate H].
  destruct (read_path (List.length data)
              {| Bufio.data := data; Bufio.offset := 4 |} (path fresh))
    as [l | e |] eqn:Hr; cbn [bind] in H; try discriminate H.
  injection H as <-. cbn [fingerPrint path].
  apply read_path_sound in Hr; [| exact Hb].
  cbn [Bufio.data Bufio.offset path fresh app] in Hr.
  destruct Hr as (l' & -> & Hl' & Hflat).
  destruct (le_bytes_compose
              (Bufio.byte_at data 3) (Bufio.byte_at data 2)
              (Bufio.byte_at data 1) (Bufio.byte_at data 0))
    as (_ & Hbe & Hu); try (apply byte_at_byte; [exact Hb | lia]).
  assert (Hd : Bufio.decode_U32BE data 0
               = Bufio.byte_at data 3 + Bufio.byte_at data 2 * 256
                 + Bufio.byte_at data 1 * 65536
                 + Bufio.byte_at data 0 * 16777216).
  { unfold Bufio.decode_U32BE. cbn [Nat.add]. lia. }
  split; [| split].
  - rewrite Hd. exact Hu.
  - exact Hl'.
  - unfold Bufio.decode_U32BE. cbn [Nat.add]. rewrite Hbe, Hflat.
    pose proof (skipn_four data 0 Hlen) as Hs.
    cbn [Nat.add skipn] in Hs. exact Hs.
Qed.

(** Whatever bytes a buffer holds, an object decoded from it has an unsigned
    32-bit fingerprint and unsigned 32-bit path elements, one for every four
    bytes after the fingerprint. *)
Theorem fromRaw_range (data : list Z) (k : KeyOriginInfo) :
  Forall byte data ->
  static_fromRaw data = Ok k ->
  uint32 (fingerPrint k)
  /\ Forall uint32 (path k)
  /\ List.length data = (4 + 4 * List.length (path k))%nat.
Proof.
  intros Hb H. destruct (fromRaw_decoded data k Hb H) as (Hf & Hp & Hd).
  split; [exact Hf |]. split; [exact Hp |].
  rewrite Hd at 1. rewrite length_app, (encoded_path_length (fun p => p)).
  cbn [be_bytes List.length]. lia.
Qed.

Lemma fromRaw_range_witness :
  uint32 (fingerPrint {| fingerPrint := 16909060; path := [134678021] |})
  /\ Forall uint32 (path {| fingerPrint := 16909060; path := [134678021] |})
  /\ List.length [1; 2; 3; 4; 5; 6; 7; 8]
     = (4 + 4 * List.length
                  (path {| fingerPrint := 16909060%Z;
                           path := [134678021%Z] |}))%nat.
Proof.
  apply (fromRaw_range [1; 2; 3; 4; 5; 6; 7; 8]).
  - repeat constructor; unfold byte; lia.
  - reflexivity.
Defined.

(** Encoding an object decoded from a buffer of bytes gives the buffer back:
    every buffer that decodes is the encoding of what it decodes to. *)
Theorem fromRaw_toRaw (data : list Z) (k : KeyOriginInfo) :
  Forall byte data ->
  static_fromRaw data = Ok k ->
  toRaw k = Ok data.
Proof.
  intros Hb H. destruct (fromRaw_decoded data k Hb H) as (Hf & Hp & Hd).
  rewrite toRaw_layout.
  - rewrite (ToUint32_small _ Hf), (uint32_path_encoding _ Hp). now rewrite <- Hd.
  - apply uint32_safe, Hf.
  - apply uint32_path_safe, Hp.
Qed.

Lemma fromRaw_toRaw_witness :
  toRaw {| fingerPrint := 16909060; path := [134678021] |}
  = Ok [1; 2; 3; 4; 5; 6; 7; 8].
Proof.
  apply (fromRaw_toRaw [1; 2; 3; 4; 5; 6; 7; 8]).
  - repeat constructor; unfold byte; lia.
  - reflexivity.
Defined.

(** ** Decoding into an object in use, and from the middle of a buffer *)

Lemma read_path_acc (fuel : nat) :
  forall br acc,
    read_path fuel br acc = (l <- read_path fuel br [] ;; Ok (acc ++ l)).
Proof.
  induction fuel as [| fuel IH]; intros br acc; cbn [read_path];
    destruct (Bufio.left br) as [n | e |]; cbn [bind]; try reflexivity;
    destruct (n =? 0)%nat; cbn [bind]; try (now rewrite app_nil_r);
    try reflexivity.
  destruct (Bufio.readU32 br) as [r | e |]; cbn [bind]; try reflexivity.
  rewrite (IH (snd r) (acc ++ [fst r])), (IH (snd r) ([] ++ [fst r])).
  destruct (read_path fuel (snd r) []) as [l | e |]; cbn [bind];
    try reflexivity.
  now rewrite <- app_assoc.
Qed.

(** [fromRaw] called on an object in use takes the fingerprint of the buffer
    and appends the decoded elements to the path the object already has;
    it fails exactly when decoding into a new object fails. *)
Theorem fromRaw_appends (self : KeyOriginInfo) (data : list Z) :
  fromRaw self data
  = (k <- static_fromRaw data ;;
     Ok {| fingerPrint := fingerPrint k; path := path self ++ path k |}).
Proof.
  unfold static_fromRaw, fromRaw, fromReader.
  destruct (Bufio.readU32BE (Bufio.read data)) as [r | e |]; cbn [bind];
    try reflexivity.
  cbn [path fresh]. rewrite (read_path_acc _ (snd r) (path self)).
  destruct (read_path _ (snd r) []) as [l | e |]; cbn [bind]; reflexivity.
Qed.

Lemma byte_at_skipn (data : list Z) (o i : nat) :
  Bufio.byte_at (skipn o data) i = Bufio.byte_at data (o + i).
Proof. unfold Bufio.byte_at. apply nth_skipn. Qed.

Lemma decode_U32_skipn (data : list Z) (o j : nat) :
  Bufio.decode_U32 (skipn o data) j = Bufio.decode_U32 data (o + j).
Proof.
  unfold Bufio.decode_U32. rewrite !byte_at_skipn, !Nat.add_assoc. reflexivity.
Qed.

Lemma decode_U32BE_skipn (data : list Z) (o j : nat) :
  Bufio.decode_U32BE (skipn o data) j = Bufio.decode_U32BE data (o + j).
Proof.
  unfold Bufio.decode_U32BE. rewrite !byte_at_skipn, !Nat.add_assoc. reflexivity.
Qed.

(** The loop run on a buffer from offset [o + j] and on the buffer without
    its first [o] bytes from offset [j] gives the same result, whatever
    sufficient budgets the two runs have. *)
Lemma read_path_skipn (data : list Z) (o : nat) (f1 : nat) :
  (o <= List.length data)%nat ->
  forall f2 j acc,
    (List.length data - (o + j) <= f1)%nat ->
    (List.length data - (o + j) <= f2)%nat ->
    read_path f1 {| Bufio.data := data; Bufio.offset := o + j |} acc
    = read_path f2 {| Bufio.data := skipn o data; Bufio.offset := j |} acc.
Proof.
  intros Ho. induction f1 as [| f1 IH]; intros f2 j acc H1 H2;
    destruct f2 as [| f2]; cbn [read_path]; unfold Bufio.left, Bufio.r_check;
    cbn [Bufio.data Bufio.offset]; rewrite length_skipn;
    destruct (Nat.leb_spec (o + j + 0) (List.length data));
    destruct (Nat.leb_spec (j + 0) (List.length data - o));
    try lia; cbn [bind]; try reflexivity;
    replace (List.length data - o - j)%nat
      with (List.length data - (o + j))%nat by lia;
    destruct (Nat.eqb_spec (List.length data - (o + j)) 0) as [Hz | Hnz];
    try reflexivity; try lia.
  unfold Bufio.readU32, Bufio.r_check.
  cbn [Bufio.data Bufio.offset]. rewrite length_skipn.
  destruct (Nat.leb_spec (o + j + 4) (List.length data));
    destruct (Nat.leb_spec (j + 4) (List.length data - o));
    try lia; cbn [bind fst snd]; try reflexivity.
  rewrite decode_U32_skipn.
  replace (o + j + 4)%nat with (o + (j + 4))%nat by lia.
  apply IH; lia.
Qed.

(** Decoding from a reader that stands at offset [o] of a buffer is decoding
    the buffer without its first [o] bytes: [fromReader] takes everything up
    to the end of the buffer for the object, and bytes that follow it in a
    larger buffer become path elements or an error. *)
Theorem fromReader_at_offset (data : list Z) (o : nat) :
  static_fromReader {| Bufio.data := data; Bufio.offset := o |}
  = static_fromRaw (skipn o data).
Proof.
  unfold static_fromReader, static_fromRaw, fromRaw, fromReader, Bufio.read.
  unfold Bufio.readU32BE, Bufio.r_check. cbn [Bufio.data Bufio.offset Nat.add].
  rewrite length_skipn.
  destruct (Nat.leb_spec (o + 4) (List.length data));
    destruct (Nat.leb_spec 4 (List.length data - o));
    try lia; cbn [bind fst snd]; try reflexivity.
  rewrite (decode_U32BE_skipn data o 0), Nat.add_0_r.
  rewrite (read_path_skipn data o (List.length data) ltac:(lia)
             (List.length data - o) 4 (path fresh)) by lia.
  reflexivity.
Qed.

(** ** Writing into a writer in use *)

Lemma write_path_short (l : list Z) :
  forall bw,
    Forall (fun p => JS.isSafeInteger p = true) l ->
    (List.length (Bufio.written bw) <= Bufio.size bw)%nat ->
    (Bufio.size bw < List.length (Bufio.written bw) + List.length l * 4)%nat ->
    write_path bw l = Throw EncodingError.
Proof.
  induction l as [| p l IH]; intros bw Hsafe Hinv Hroom.
  - cbn [List.length] in Hroom. lia.
  - inversion Hsafe as [| ? ? Hp Hl]; subst.
    cbn [write_path]. unfold Bufio.writeU32, Bufio.w_check.
    destruct (Nat.leb_spec (List.length (Bufio.written bw) + 4) (Bufio.size bw))
      as [Hfit | Hfull]; cbn [bind]; [| reflexivity].
    rewrite (encode_U32_bytes p Hp). cbn [bind].
    apply IH; [exact Hl | |]; cbn [Bufio.size Bufio.written];
      rewrite length_app, le_bytes_length; cbn [List.length] in Hroom; lia.
Qed.

(** [toWriter] on a writer in use, for an object whose fields are safe
    integers: when the writer has room for [getSize] more bytes, the bytes
    already written stay and the encoding follows them; when it has less, an
    out-of-bounds error is thrown. *)
Theorem toWriter_room (self : KeyOriginInfo) (bw : Bufio.StaticWriter) :
  JS.isSafeInteger (fingerPrint self) = true ->
  Forall (fun p => JS.isSafeInteger p = true) (path self) ->
  (List.length (Bufio.written bw) <= Bufio.size bw)%nat ->
  toWriter self bw
  = if (List.length (Bufio.written bw) + getSize self <=? Bufio.size bw)%nat
    then Ok {| Bufio.size := Bufio.size bw;
               Bufio.written :=
                 Bufio.written bw
                   ++ be_bytes (JS.ToUint32 (fingerPrint self))
                   ++ flat_map (fun p => le_bytes (JS.ToUint32 p)) (path self) |}
    else Throw EncodingError.
Proof.
  intros Hf Hp Hinv. unfold toWriter, getSize, Bufio.writeU32BE, Bufio.w_check.
  destruct (Nat.leb_spec
              (List.length (Bufio.written bw) + (4 + List.length (path self) * 4))
              (Bufio.size bw)) as [Hroom | Hshort].
  - destruct (Nat.leb_spec (List.length (Bufio.written bw) + 4) (Bufio.size bw));
      [| lia].
    cbn [bind]. rewrite (encode_U32BE_bytes _ Hf). cbn [bind].
    rewrite write_path_ok; cbn [Bufio.size Bufio.written].
    + now rewrite <- app_assoc.
    + exact Hp.
    + rewrite length_app. cbn [be_bytes List.length]. lia.
  - destruct (Nat.leb_spec (List.length (Bufio.written bw) + 4) (Bufio.size bw));
      cbn [bind]; [| reflexivity].
    rewrite (encode_U32BE_bytes _ Hf). cbn [bind].
    apply write_path_short; cbn [Bufio.size Bufio.written];
      try rewrite length_app; cbn [be_bytes List.length]; try lia.
    exact Hp.
Qed.

Lemma toWriter_room_witness :
  toWriter scenario sample_writer
  = Ok {| Bufio.size := 20;
          Bufio.written :=
            [1; 2; 3; 4; 0xDE; 0xAD; 0xBE; 0xEF; 0x2C; 0x00; 0x00; 0x80;
             0x00; 0x00; 0x00; 0x80; 0x05; 0x00; 0x00; 0x00] |}.
Proof.
  rewrite (toWriter_room scenario sample_writer).
  - reflexivity.
  - reflexivity.
  - repeat constructor.
  - cbn. lia.
Defined.

(** ** Values outside the unsigned 32-bit range *)

Lemma encoded_path_map (l : list Z) :
  flat_map (fun p => le_bytes (JS.ToUint32 p)) l
  = flat_map le_bytes (map JS.ToUint32 l).
Proof.
  induction l as [| p l IH]; [reflexivity |].
  cbn [flat_map map]. now rewrite IH.
Qed.

Lemma ToUint32_path_range (l : list Z) : Forall uint32 (map JS.ToUint32 l).
Proof.
  induction l as [| p l IH]; constructor; [apply ToUint32_range | exact IH].
Qed.

(** Encoding never fails on safe integers, gives [getSize] bytes, and keeps
    every field modulo [2^32] only: decoding the bytes gives the fingerprint
    and the path elements reduced to their unsigned 32-bit values. *)
Theorem encode_decode_reduces (self : KeyOriginInfo) :
  JS.isSafeInteger (fingerPrint self) = true ->
  Forall (fun p => JS.isSafeInteger p = true) (path self) ->
  exists raw,
    toRaw self = Ok raw
    /\ List.length raw = getSize self
    /\ static_fromRaw raw
       = Ok {| fingerPrint := JS.ToUint32 (fingerPrint self);
               path := map JS.ToUint32 (path self) |}.
Proof.
  intros Hf Hp. eexists. split; [exact (toRaw_layout self Hf Hp) |]. split.
  - rewrite length_app, encoded_path_length. unfold getSize. reflexivity.
  - rewrite encoded_path_map. apply fromRaw_encoded.
    + apply ToUint32_range.
    + apply ToUint32_path_range.
Qed.

Lemma encode_decode_reduces_witness :
  exists raw,
    toRaw sample_unreduced = Ok raw
    /\ List.length raw = getSize sample_unreduced
    /\ static_fromRaw raw
       = Ok {| fingerPrint := JS.ToUint32 (fingerPrint sample_unreduced);
               path := map JS.ToUint32 (path sample_unreduced) |}.
Proof.
  apply (encode_decode_reduces sample_unreduced).
  - reflexivity.
  - repeat constructor.
Defined.

Lemma segment_ToUint32 (p : Z) : segment (JS.ToUint32 p) = segment p.
Proof.
  unfold segment, JS.ToUint32.
  rewrite (Z.mod_pow2_bits_low p 32 31) by lia.
  rewrite !Z.land_ones by lia.
  rewrite Z.mod_mod_divide by (exists 2; reflexivity). reflexivity.
Qed.

Lemma segments_ToUint32 (l : list Z) :
  segments (map JS.ToUint32 l) = segments l.
Proof.
  induction l as [| p l IH]; [reflexivity |].
  cbn [map segments]. now rewrite segment_ToUint32, IH.
Qed.

(** The formatted path survives encoding and decoding even when the fields
    are outside the unsigned 32-bit range: [format] reads the low 32 bits of
    an element only. *)
Theorem format_after_round_trip (self : KeyOriginInfo) :
  JS.isSafeInteger (fingerPrint self) = true ->
  Forall (fun p => JS.isSafeInteger p = true) (path self) ->
  exists raw k,
    toRaw self = Ok raw
    /\ static_fromRaw raw = Ok k
    /\ fmt_path (format k) = fmt_path (format self).
Proof.
  intros Hf Hp. eexists. eexists.
  split; [exact (toRaw_layout self Hf Hp) |]. split.
  - rewrite encoded_path_map. apply fromRaw_encoded.
    + apply ToUint32_range.
    + apply ToUint32_path_range.
  - unfold format. cbn [fmt_path path].
    rewrite !format_loop_segments. now rewrite segments_ToUint32.
Qed.

Lemma format_after_round_trip_witness :
  exists raw k,
    toRaw sample_unreduced = Ok raw
    /\ static_fromRaw raw = Ok k
    /\ fmt_path (format k) = fmt_path (format sample_unreduced).
Proof.
  apply (format_after_round_trip sample_unreduced).
  - reflexivity.
  - repeat constructor.
Defined.

(** ** An origin derived from a wallet key, encoded and formatted *)

Lemma ToUint32_bitor_HARDENED (a : Z) :
  JS.ToUint32 (JS.bitor a common.HARDENED) = a mod 2 ^ 31 + 2 ^ 31.
Proof.
  rewrite bitor_HARDENED_value. unfold JS.ToUint32.
  pose proof (Z.mod_pos_bound a (2 ^ 31) ltac:(lia)) as Hb.
  symmetry. apply Z.mod_unique_pos with (q := -1); lia.
Qed.

Lemma digest_fingerprint_range (digest : list Z) :
  Forall byte digest -> (4 <= List.length digest)%nat ->
  uint32 (Bufio.decode_U32BE digest 0).
Proof.
  intros Hb Hlen.
  destruct (le_bytes_compose
              (Bufio.byte_at digest 3) (Bufio.byte_at digest 2)
              (Bufio.byte_at digest 1) (Bufio.byte_at digest 0))
    as (_ & _ & Hu); try (apply byte_at_byte; [exact Hb | lia]).
  unfold Bufio.decode_U32BE. cbn [Nat.add].
  unfold uint32 in *. lia.
Qed.

(** An origin derived from a wallet key does not survive encoding: the bytes
    decode to an object with the same fingerprint whose first path element is
    the unsigned [account mod 2^31 + 2^31], while the derived object holds
    the negative [account | HARDENED], and [equals] tells the two apart in
    both directions. *)
Theorem fromWalletKey_round_trip_differs
  (parsePath : JS.value -> bool -> result (list Z))
  (hash160_digest : list Z -> list Z) (wk : WalletKey) :
  Forall byte (hash160_digest (publicKey wk)) ->
  List.length (hash160_digest (publicKey wk)) = 20%nat ->
  uint32 (branch wk) ->
  uint32 (index wk) ->
  exists k raw k',
    static_fromWalletKey parsePath hash160_digest wk = Ok k
    /\ toRaw k = Ok raw
    /\ static_fromRaw raw = Ok k'
    /\ fingerPrint k' = fingerPrint k
    /\ path k' = [account wk mod 2 ^ 31 + 2 ^ 31; branch wk; index wk]
    /\ equals k k' = false
    /\ equals k' k = false.
Proof.
  intros Hb Hlen Hbr Hix.
  pose proof (digest_fingerprint_range _ Hb ltac:(lia)) as Hfp.
  unfold static_fromWalletKey, constructor, fromWalletKey, Buffer_readUInt32BE.
  cbn [bind Nat.add path fresh app]. cbv zeta. rewrite Hlen. cbn [Nat.leb bind].
  set (fp := Bufio.decode_U32BE (hash160_digest (publicKey wk)) 0) in *.
  set (first := JS.bitor (account wk) common.HARDENED).
  pose proof (bitor_HARDENED_value (account wk)) as Hv. fold first in Hv.
  pose proof (ToUint32_bitor_HARDENED (account wk)) as Hu. fold first in Hu.
  pose proof (Z.mod_pos_bound (account wk) (2 ^ 31) ltac:(lia)) as Hm.
  assert (Hsafe : Forall (fun p => JS.isSafeInteger p = true)
                    [first; branch wk; index wk]).
  { constructor.
    - unfold JS.isSafeInteger. apply Z.leb_le. lia.
    - constructor; [apply uint32_safe, Hbr |].
      constructor; [apply uint32_safe, Hix | constructor]. }
  eexists. eexists.
  exists {| fingerPrint := fp;
            path := [account wk mod 2 ^ 31 + 2 ^ 31; branch wk; index wk] |}.
  split; [reflexivity |]. split.
  - apply toRaw_layout; [apply uint32_safe, Hfp | exact Hsafe].
  - cbn [fingerPrint path]. split.
    + rewrite encoded_path_map. cbn [map].
      rewrite Hu, (ToUint32_small _ Hfp), (ToUint32_small _ Hbr),
        (ToUint32_small _ Hix).
      apply fromRaw_encoded; [exact Hfp |].
      constructor; [unfold uint32; lia |].
      constructor; [exact Hbr |]. constructor; [exact Hix | constructor].
    + split; [reflexivity |]. split; [reflexivity |].
      unfold equals. cbn [fingerPrint path List.length seq equals_loop nth_error].
      rewrite Z.eqb_refl. cbn [negb strict_ne].
      destruct (Z.eqb_spec first (account wk mod 2 ^ 31 + 2 ^ 31)) as [E | _];
        [lia |].
      destruct (Z.eqb_spec (account wk mod 2 ^ 31 + 2 ^ 31) first) as [E | _];
        [lia |].
      split; reflexivity.
Qed.

Lemma fromWalletKey_round_trip_differs_witness :
  exists k raw k',
    static_fromWalletKey sample_parsePath sample_digest sample_key = Ok k
    /\ toRaw k = Ok raw
    /\ static_fromRaw raw = Ok k'
    /\ fingerPrint k' = fingerPrint k
    /\ path k'
       = [account sample_key mod 2 ^ 31 + 2 ^ 31; branch sample_key;
          index sample_key]
    /\ equals k k' = false
    /\ equals k' k = false.
Proof.
  apply (fromWalletKey_round_trip_differs sample_parsePath sample_digest
           sample_key).
  - cbn. repeat constructor; unfold byte; lia.
  - reflexivity.
  - unfold uint32; cbn; lia.
  - unfold uint32; cbn; lia.
Defined.

Lemma segment_plain (p : Z) :
  0 <= p < 2 ^ 31 -> segment p = ("/" ++ JS.toString p)%string.
Proof.
  intros H. unfold segment.
  rewrite Z.land_ones, Z.mod_small by lia.
  rewrite int32_sign by lia.
  destruct (Z.ltb_spec p 0); [lia |]. now rewrite string_app_empty.
Qed.

(** An origin derived from a wallet key whose account, branch and index are
    below [2^31] formats to [m/account'/branch/index]: the account is shown
    hardened, branch and index are not. *)
Theorem fromWalletKey_format
  (parsePath : JS.value -> bool -> result (list Z))
  (hash160_digest : list Z -> list Z) (wk : WalletKey) :
  List.length (hash160_digest (publicKey wk)) = 20%nat ->
  0 <= account wk < 2 ^ 31 ->
  0 <= branch wk < 2 ^ 31 ->
  0 <= index wk < 2 ^ 31 ->
  exists k,
    static_fromWalletKey parsePath hash160_digest wk = Ok k
    /\ fmt_path (format k)
       = ("m/" ++ JS.toString (account wk) ++ "'/"
               ++ JS.toString (branch wk) ++ "/"
               ++ JS.toString (index wk))%string.
Proof.
  intros Hlen Ha Hb Hi.
  unfold static_fromWalletKey, constructor, fromWalletKey, Buffer_readUInt32BE.
  cbn [bind Nat.add path fresh app]. cbv zeta. rewrite Hlen. cbn [Nat.leb bind].
  eexists. split; [reflexivity |].
  unfold format. cbn [fmt_path path]. rewrite format_loop_segments.
  cbn [segments]. rewrite (segment_plain _ Hb), (segment_plain _ Hi).
  unfold segment at 1.
  rewrite bitor_HARDENED_bit31, bitor_HARDENED_low_bits.
  rewrite Z.land_ones, Z.mod_small by lia.
  rewrite string_app_empty, !string_app_assoc. reflexivity.
Qed.

Lemma fromWalletKey_format_witness :
  exists k,
    static_fromWalletKey sample_parsePath sample_digest sample_key = Ok k
    /\ fmt_path (format k)
       = ("m/" ++ JS.toString (account sample_key) ++ "'/"
               ++ JS.toString (branch sample_key) ++ "/"
               ++ JS.toString (index sample_key))%string.
Proof.
  apply (fromWalletKey_format sample_parsePath sample_digest sample_key).
  - reflexivity.
  - cbn; lia.
  - cbn; lia.
  - cbn; lia.
Defined.

(** ** JSON export and import *)

(** Importing the JSON export of an object with a nonzero unsigned 32-bit
    fingerprint and a non-empty path of unsigned 32-bit elements gives the
    object back. *)
Theorem toJSON_fromJSON
  (parsePath : JS.value -> bool -> result (list Z)) (self : KeyOriginInfo) :
  uint32 (fingerPrint self) ->
  fingerPrint self <> 0 ->
  Forall uint32 (path self) ->
  path self <> [] ->
  static_fromJSON parsePath (toJSON self) = Ok self.
Proof.
  intros Hf Hnz Hp Hne. unfold static_fromJSON, constructor, fromJSON, toJSON.
  cbn [bind json_fingerPrint json_path JS.truthy path fresh].
  destruct (Z.eqb_spec (fingerPrint self) 0) as [E | _]; [contradiction |].
  cbn [negb]. rewrite (assert_uint32_ok _ Hf). cbn [bind].
  destruct self as [fp [| p l]]; cbn [path fingerPrint map] in *;
    [contradiction |].
  rewrite push_each_forallb.
  assert (Hall : forall l', Forall uint32 l' ->
                   forallb JS.is_uint32 (map JS.Num l') = true
                   /\ numbers (map JS.Num l') = l').
  { induction 1 as [| z l' Hz _ [IH1 IH2]]; [split; reflexivity |].
    cbn [map forallb]. split.
    - rewrite IH1, andb_true_r. unfold JS.is_uint32, JS.ushr.
      rewrite Z.shiftr_0_r, (ToUint32_small z Hz). apply Z.eqb_refl.
    - unfold numbers in *. cbn [flat_map app]. now rewrite IH2. }
  destruct (Hall (p :: l) Hp) as [H1 H2]. cbn [map] in H1, H2.
  rewrite H1, H2. reflexivity.
Qed.

Lemma toJSON_fromJSON_witness :
  static_fromJSON sample_parsePath (toJSON scenario) = Ok scenario.
Proof.
  apply (toJSON_fromJSON sample_parsePath scenario).
  - unfold uint32, scenario; cbn; lia.
  - unfold scenario; cbn; lia.
  - unfold scenario; cbn; repeat constructor; unfold uint32; lia.
  - unfold scenario; cbn; discriminate.
Defined.

(** The JSON export of an object whose fingerprint is unset cannot be
    imported: [toJSON] writes the fingerprint [-1], which [fromJSON] takes for
    a value to check and refuses with an assertion error. *)
Theorem toJSON_unset_not_importable
  (parsePath : JS.value -> bool -> result (list Z)) (l : list Z) :
  static_fromJSON parsePath
    (toJSON {| fingerPrint := fingerPrint fresh; path := l |})
  = Throw AssertionError.
Proof.
  unfold static_fromJSON, constructor, fromJSON, toJSON.
  cbn [bind json_fingerPrint json_path JS.truthy fingerPrint fresh Z.eqb negb].
  rewrite assert_uint32_value. reflexivity.
Qed.

Lemma fromOptions_array_range_witness :
  Forall uint32 (path {| fingerPrint := 7; path := [0x8000002C; 5] |})
  /\ (fingerPrint {| fingerPrint := 7; path := [0x8000002C; 5] |}
      = fingerPrint fresh
      \/ uint32 (fingerPrint {| fingerPrint := 7; path := [0x8000002C; 5] |})).
Proof.
  apply (fromOptions_array_range sample_parsePath (JS.Num 7)
           [JS.Num 0x8000002C; JS.Num 5]).
  reflexivity.
Defined.

Lemma fromJSON_array_range_witness :
  Forall uint32 (path {| fingerPrint := 7; path := [0x8000002C; 5] |})
  /\ (fingerPrint {| fingerPrint := 7; path := [0x8000002C; 5] |}
      = fingerPrint fresh
      \/ uint32 (fingerPrint {| fingerPrint := 7; path := [0x8000002C; 5] |})).
Proof.
  apply (fromJSON_array_range sample_parsePath (JS.Num 7)
           (JS.Num 0x8000002C) [JS.Num 5]).
  reflexivity.
Defined.

(** ** The number stored for the account *)

(** C6 fails on the code: for an account below [2^31] the derivation stores
    the three-element path [account - 2^31, branch, index], whose first
    element is the signed result of [|], not the unsigned 32-bit integer
    [account + 2^31] that is the account with the hardened bit set (for
    account 5, [-2147483643] and not [2147483653]); the fingerprint is the
    first four bytes of the digest, most significant first, as claimed. *)
Theorem fromWalletKey_path_signed
  (parsePath : JS.value -> bool -> result (list Z))
  (hash160_digest : list Z -> list Z) (wk : WalletKey) :
  List.length (hash160_digest (publicKey wk)) = 20%nat ->
  0 <= account wk < 2 ^ 31 ->
  exists k,
    static_fromWalletKey parsePath hash160_digest wk = Ok k
    /\ fingerPrint k = Bufio.decode_U32BE (hash160_digest (publicKey wk)) 0
    /\ path k = [account wk - 2 ^ 31; branch wk; index wk]
    /\ (account wk - 2 ^ 31 =? account wk + 2 ^ 31) = false
    /\ JS.is_uint32 (JS.Num (account wk - 2 ^ 31)) = false
    /\ JS.ToUint32 (account wk - 2 ^ 31) = account wk + 2 ^ 31.
Proof.
  intros Hlen Ha.
  unfold static_fromWalletKey, constructor, fromWalletKey, Buffer_readUInt32BE.
  cbn [bind Nat.add path fresh app]. cbv zeta. rewrite Hlen. cbn [Nat.leb bind].
  pose proof (bitor_HARDENED_value (account wk)) as Hv.
  pose proof (ToUint32_bitor_HARDENED (account wk)) as Hu.
  rewrite Z.mod_small in Hv, Hu by lia. rewrite Hv in Hu.
  eexists. split; [reflexivity |]. cbn [fingerPrint path].
  split; [reflexivity |]. split; [now rewrite Hv |].
  split; [apply Z.eqb_neq; lia |].
  split; [apply not_uint32_negative; lia | exact Hu].
Qed.

Lemma fromWalletKey_path_signed_witness :
  exists k,
    static_fromWalletKey sample_parsePath sample_digest sample_key = Ok k
    /\ fingerPrint k
       = Bufio.decode_U32BE (sample_digest (publicKey sample_key)) 0
    /\ path k = [account sample_key - 2 ^ 31; branch sample_key;
                 index sample_key]
    /\ (account sample_key - 2 ^ 31 =? account sample_key + 2 ^ 31) = false
    /\ JS.is_uint32 (JS.Num (account sample_key - 2 ^ 31)) = false
    /\ JS.ToUint32 (account sample_key - 2 ^ 31) = account sample_key + 2 ^ 31.
Proof.
  apply (fromWalletKey_path_signed sample_parsePath sample_digest sample_key).
  - reflexivity.
  - cbn; lia.
Defined.

(** ** Importing an object's own export *)

Lemma push_own_goes_on (fuel : nat) :
  forall i arr,
    (i < List.length arr)%nat ->
    Z.of_nat (List.length arr) <= 2 ^ 32 - 1 ->
    Forall uint32 arr ->
    push_own fuel i arr
    = if Z.of_nat fuel + Z.of_nat (List.length arr) <=? 2 ^ 32 - 1
      then OutOfFuel else Throw RangeError.
Proof.
  induction fuel as [| fuel IH]; intros i arr Hi Hmax Harr;
    destruct (nth_error arr i) as [p |] eqn:Hp;
    try (apply nth_error_None in Hp; lia);
    cbn [push_own]; rewrite Hp.
  - destruct (Z.leb_spec (Z.of_nat 0 + Z.of_nat (List.length arr)) (2 ^ 32 - 1));
      [reflexivity | lia].
  - assert (Hu : uint32 p).
    { apply nth_error_In in Hp.
      exact (proj1 (Forall_forall uint32 arr) Harr p Hp). }
    rewrite (assert_uint32_ok p Hu). cbn [bind]. unfold array_push.
    destruct (Z.ltb_spec (Z.of_nat (List.length arr)) (2 ^ 32 - 1))
      as [Hroom | Hfull]; cbn [bind].
    + rewrite IH.
      * rewrite length_app. cbn [List.length].
        destruct (Z.leb_spec
                    (Z.of_nat fuel + Z.of_nat (List.length arr + 1))
                    (2 ^ 32 - 1));
          destruct (Z.leb_spec
                      (Z.of_nat (S fuel) + Z.of_nat (List.length arr))
                      (2 ^ 32 - 1)); try reflexivity; lia.
      * rewrite length_app. cbn [List.length]. lia.
      * rewrite length_app. cbn [List.length]. lia.
      * apply Forall_app. split; [exact Harr |].
        constructor; [exact Hu | constructor].
    + destruct (Z.leb_spec
                  (Z.of_nat (S fuel) + Z.of_nat (List.length arr))
                  (2 ^ 32 - 1)); [lia | reflexivity].
Qed.

(** [k.fromJSON(k.toJSON())] returns no object when [k] has an unsigned
    32-bit fingerprint and a non-empty path of unsigned 32-bit elements:
    [toJSON] hands out the path array itself and the loop of [fromJSON]
    pushes onto the array it walks, so the loop is still running after every
    number of turns the array has room for, and ends only in the range error
    of a push onto a full array. *)
Theorem fromJSON_own_toJSON_never_returns
  (fuel : nat) (parsePath : JS.value -> bool -> result (list Z))
  (self : KeyOriginInfo) :
  uint32 (fingerPrint self) ->
  Forall uint32 (path self) ->
  path self <> [] ->
  Z.of_nat (List.length (path self)) <= 2 ^ 32 - 1 ->
  fromJSON_own_toJSON fuel parsePath self
  = if Z.of_nat fuel + Z.of_nat (List.length (path self)) <=? 2 ^ 32 - 1
    then OutOfFuel else Throw RangeError.
Proof.
  intros Hf Hp Hne Hmax. unfold fromJSON_own_toJSON.
  assert (Hfp : (if JS.truthy (JS.Num (fingerPrint self))
                 then assert_uint32 (JS.Num (fingerPrint self))
                 else Ok (fingerPrint self)) = Ok (fingerPrint self)).
  { destruct (JS.truthy _); [apply assert_uint32_ok, Hf | reflexivity]. }
  rewrite Hfp. cbn [bind].
  destruct (path self) as [| p l] eqn:E; [contradiction |].
  rewrite push_own_goes_on; [| cbn; lia | exact Hmax | exact Hp].
  destruct (Z.of_nat fuel + Z.of_nat (List.length (p :: l)) <=? 2 ^ 32 - 1);
    reflexivity.
Qed.

Lemma fromJSON_own_toJSON_never_returns_witness :
  fromJSON_own_toJSON 1000 sample_parsePath scenario = OutOfFuel.
Proof.
  rewrite (fromJSON_own_toJSON_never_returns 1000 sample_parsePath scenario).
  - reflexivity.
  - unfold uint32, scenario; cbn; lia.
  - unfold scenario; cbn; repeat constructor; unfold uint32; lia.
  - unfold scenario; cbn; discriminate.
  - unfold scenario; cbn; lia.
Defined.
